(** * QuizMaster: the session store, its lifecycle and its persistence

    A shallow embedding of [src/App.tsx] and [src/types.ts].

    - The data model follows [types.ts]: records for the interfaces,
      inductive types for the enums, [gmap string _] for the own
      properties of the objects used as dictionaries ([UserAnswers], the
      session store).  The keys of [UserAnswers] are identifiers that
      the generator chooses, so reading one also finds what a plain
      object inherits; the keys of the store are [session-<n>].
    - [Date.now()] is an explicit argument [now] of every operation that
      reads the clock.
    - The two collaborators ([generateQuiz], [correctAndReviewQuiz]) are
      asynchronous: every handler that awaits one is split into the part
      that runs up to the [await] and the continuation that runs when the
      promise settles. *)

From Stdlib Require Import ZArith Ascii String.
From stdpp Require Import gmap strings list fin_maps pretty sorting.

Set Warnings "-register-all".

Local Open Scope string_scope.
Local Open Scope list_scope.
Local Open Scope Z_scope.

(** ** types.ts *)

Inductive SessionState :=
  | CONFIGURING_QUIZ
  | GENERATING_QUIZ
  | TAKING_QUIZ
  | SUBMITTING_QUIZ
  | REVIEWING_QUIZ
  | ERROR.

Inductive QuizType := SINGLE | MULTIPLE | MIXED.

Record Option := { text : string; isCorrect : bool }.

Inductive QuestionType := single | multiple.

Record Question := {
  question_id : string;
  questionText : string;
  options : list Option;
  type : QuestionType
}.

(** [interface UserAnswers { [questionId: string]: string[] }]: the own
    properties of the object. *)
Abbreviation UserAnswers := (gmap string (list string)).

Record QuizResult := {
  result_questionText : string;
  userAnswer : list string;
  correctAnswer : list string;
  result_isCorrect : bool;
  feedbackFR : string;
  feedbackAR : string
}.

Record CorrectionResponse := {
  results : list QuizResult;
  correction_weakTopics : string
}.

(** The values of type [number] the program computes.  They are
    doubles; the program obtains them from integer literals, [Date.now()],
    [parseInt], [Math.max] and the difference of two time stamps, so a
    finite one always has an integer value: [Num z] is the double whose
    value is the integer [z] ([+0] and [-0] are both [Num 0]: nothing in
    the program tells them apart).  Text is turned into a number by
    [roundToDouble] below. *)
Inductive JsNumber := NaN | Num (z : Z) | Infinity | NegInfinity.

(** The double nearest to the integer [z], ties going to the even
    significand, and an infinity beyond the largest double. *)
Definition roundToDouble (z : Z) : JsNumber :=
  let a := Z.abs z in
  if bool_decide (a < 2 ^ 53) then Num z
  else
    (* a = q * 2^e + r with 2^52 <= q < 2^53 and 0 <= r < 2^e *)
    let e := Z.log2 a - 52 in
    let q := a / 2 ^ e in
    let r := a mod 2 ^ e in
    let half := 2 ^ (e - 1) in
    let m := if bool_decide (half < r ∨ (r = half ∧ Z.odd q = true)) then q + 1 else q in
    if bool_decide (2 ^ 1024 ≤ m * 2 ^ e)
    then (if bool_decide (0 < z) then Infinity else NegInfinity)
    else Num (Z.sgn z * (m * 2 ^ e)).

(** [error?: string | null] *)
Inductive ErrorField := error_undefined | error_null | error_message (m : string).

(** [weakTopics?: string] is [option string] ([None] is [undefined]);
    [correction: CorrectionResponse | null] is [option CorrectionResponse]
    ([None] is [null]). *)
Record DocumentSession := {
  session_id : string;
  fileName : string;
  content : string;
  quizType : QuizType;
  numQuestions : JsNumber;
  questions : list Question;
  userAnswers : UserAnswers;
  correction : option CorrectionResponse;
  weakTopics : option string;
  lastAccessed : Z;
  state : SessionState;
  error : ErrorField
}.

Global Instance SessionState_eq_dec : EqDecision SessionState.
Proof. solve_decision. Defined.
Global Instance QuizType_eq_dec : EqDecision QuizType.
Proof. solve_decision. Defined.
Global Instance QuestionType_eq_dec : EqDecision QuestionType.
Proof. solve_decision. Defined.
Global Instance JsNumber_eq_dec : EqDecision JsNumber.
Proof. solve_decision. Defined.
Global Instance ErrorField_eq_dec : EqDecision ErrorField.
Proof. solve_decision. Defined.

(** ** Object literals passed to [updateActiveSession]

    [updates: Partial<Omit<DocumentSession, 'id'>>] is an object literal
    that names some of the fields.  It is modelled as the list of its
    [key: value] entries, in the order the literal writes them. *)

Inductive FieldUpdate :=
  | set_fileName (v : string)
  | set_content (v : string)
  | set_quizType (v : QuizType)
  | set_numQuestions (v : JsNumber)
  | set_questions (v : list Question)
  | set_userAnswers (v : UserAnswers)
  | set_correction (v : option CorrectionResponse)
  | set_weakTopics (v : option string)
  | set_lastAccessed (v : Z)
  | set_state (v : SessionState)
  | set_error (v : ErrorField).

Abbreviation Updates := (list FieldUpdate).

(** One [key: value] entry written over a session object. *)
Definition assign (f : FieldUpdate) (s : DocumentSession) : DocumentSession :=
  let '{| session_id := i; fileName := fn; content := c; quizType := qt;
          numQuestions := n; questions := qs; userAnswers := ua;
          correction := co; weakTopics := wt; lastAccessed := la;
          state := st; error := er |} := s in
  match f with
  | set_fileName v => Build_DocumentSession i v c qt n qs ua co wt la st er
  | set_content v => Build_DocumentSession i fn v qt n qs ua co wt la st er
  | set_quizType v => Build_DocumentSession i fn c v n qs ua co wt la st er
  | set_numQuestions v => Build_DocumentSession i fn c qt v qs ua co wt la st er
  | set_questions v => Build_DocumentSession i fn c qt n v ua co wt la st er
  | set_userAnswers v => Build_DocumentSession i fn c qt n qs v co wt la st er
  | set_correction v => Build_DocumentSession i fn c qt n qs ua v wt la st er
  | set_weakTopics v => Build_DocumentSession i fn c qt n qs ua co v la st er
  | set_lastAccessed v => Build_DocumentSession i fn c qt n qs ua co wt v st er
  | set_state v => Build_DocumentSession i fn c qt n qs ua co wt la v er
  | set_error v => Build_DocumentSession i fn c qt n qs ua co wt la st v
  end.

(** [{ ...session, ...updates, lastAccessed: Date.now() }] *)
Definition applyUpdates (updates : Updates) (now : Z) (s : DocumentSession)
  : DocumentSession :=
  assign (set_lastAccessed now) (foldl (λ acc f, assign f acc) s updates).

(** ** The session store

    [sessions: Record<string, DocumentSession>].  The spread in
    [updateActiveSession] reads [prev[activeSessionId]] without checking
    that the key is still there: when the session was deleted while a
    collaborator call was in flight, [{...undefined, ...updates,
    lastAccessed}] is an object that holds the entries of [updates] and
    [lastAccessed] only.  Such an object is an [Orphan]; it is kept as the
    list of its entries (later entries win). *)

Inductive SessionObj :=
  | Full (s : DocumentSession)
  | Orphan (entries : Updates).

Abbreviation Sessions := (gmap string SessionObj).

Definition spread (prevSession : option SessionObj) (updates : Updates) (now : Z)
  : SessionObj :=
  match prevSession with
  | Some (Full s) => Full (applyUpdates updates now s)
  | Some (Orphan entries) => Orphan (entries ++ updates ++ [set_lastAccessed now])
  | None => Orphan (updates ++ [set_lastAccessed now])
  end.

(** The component state of [App] that the handlers read and write. *)
Record App := {
  sessions : Sessions;
  activeSessionId : option string
}.

(** [activeSessionId ? sessions[activeSessionId] : null].  The identifier
    is [null] or the [id] of a session ([session-<n>], never the empty
    string), so it is truthy exactly when it is not [null]. *)
Definition activeSession (app : App) : option SessionObj :=
  match activeSessionId app with
  | Some i => sessions app !! i
  | None => None
  end.

Definition setSessions (f : Sessions → Sessions) (app : App) : App :=
  {| sessions := f (sessions app); activeSessionId := activeSessionId app |}.

Definition setActiveSessionId (i : option string) (app : App) : App :=
  {| sessions := sessions app; activeSessionId := i |}.

(** [updateActiveSession], as the store update it queues.  The identifier
    is the one captured by the closure that calls it. *)
Definition updateActiveSession (activeSessionId : option string)
    (updates : Updates) (now : Z) (prev : Sessions) : Sessions :=
  match activeSessionId with
  | None => prev
  | Some i => <[i := spread (prev !! i) updates now]> prev
  end.

(** Reading a field of the active object; [None] is [undefined]. *)
Definition obj_questions (o : SessionObj) : option (list Question) :=
  match o with
  | Full s => Some (questions s)
  | Orphan entries =>
      last (omap (λ f, match f with set_questions v => Some v | _ => None end) entries)
  end.

Definition obj_userAnswers (o : SessionObj) : option UserAnswers :=
  match o with
  | Full s => Some (userAnswers s)
  | Orphan entries =>
      last (omap (λ f, match f with set_userAnswers v => Some v | _ => None end) entries)
  end.

(** ** handleFileChange *)

(** [e.target.files?.[0]]: the file's name and the outcome of
    [await file.text()] ([None] when the read rejects). *)
Record File := { name : string; file_text : option string }.

Definition newSession (newId fileName text : string) (now : Z) : DocumentSession :=
  {| session_id := newId;
     fileName := fileName;
     content := text;
     quizType := MIXED;
     numQuestions := Num 5;
     questions := [];
     userAnswers := ∅;
     correction := None;
     weakTopics := None;
     lastAccessed := now;
     state := CONFIGURING_QUIZ;
     error := error_undefined |}.

(** [now1] and [now2] are the two readings of the clock (the identifier,
    then [lastAccessed]). *)
Definition handleFileChange (file : option File) (now1 now2 : Z) (app : App) : App :=
  match file with
  | None => app
  | Some f =>
      match file_text f with
      | None => app
      | Some text =>
          let newId := "session-" +:+ pretty now1 in
          setActiveSessionId (Some newId)
            (setSessions (λ prev, <[newId := Full (newSession newId (name f) text now2)]> prev) app)
      end
  end.

(** The session an [App] shows, when it is a whole one. *)
Definition shown (app : App) : option DocumentSession :=
  match activeSession app with
  | Some (Full s) => Some s
  | _ => None
  end.

(** The same, with a placeholder when there is none. *)
Definition session_of (app : App) : DocumentSession :=
  default (newSession "" "" "" 0) (shown app).

(** ** handleDeleteSession; [confirmed] is the answer to [window.confirm]. *)
Definition handleDeleteSession (sessionId : string) (confirmed : bool) (app : App) : App :=
  if confirmed then
    let app' := setSessions (λ prev, delete sessionId prev) app in
    if bool_decide (activeSessionId app = Some sessionId)
    then setActiveSessionId None app'
    else app'
  else app.

(** ** The collaborators (services/geminiService)

    What a rejected promise carries: an [Error] object with its message,
    or some other thrown value. *)
Inductive Thrown := ErrorObject (message : string) | OtherValue.

(** [err instanceof Error ? err.message : 'Une erreur inconnue est survenue.'] *)
Definition errorMessage (err : Thrown) : string :=
  match err with
  | ErrorObject message => message
  | OtherValue => "Une erreur inconnue est survenue."
  end.

(** [generateQuiz].  The request to the model and the decoding of its
    reply are opaque; [reply] is the array of questions obtained inside
    the [try] block, or [None] when anything in that block throws (the
    request fails, the text is not JSON, the value is not an array).
    Every such failure is replaced by one fixed [Error].  A question
    whose [id] is falsy gets the identifier [q-<now>-<index>]. *)
Definition generateQuiz (reply : option (list Question)) (now : Z)
  : list Question + Thrown :=
  match reply with
  | Some questionsArray =>
      inl (imap (λ index q,
                   if bool_decide (question_id q = "")
                   then {| question_id := "q-" +:+ pretty now +:+ "-" +:+ pretty index;
                           questionText := questionText q;
                           options := options q;
                           type := type q |}
                   else q) questionsArray)
  | None =>
      inr (ErrorObject
             "Impossible de générer le quiz. Veuillez vérifier le contenu fourni et réessayer.")
  end.

(** [correctAndReviewQuiz]: [reply] is the parsed grading, or [None] when
    the [try] block throws. *)
Definition correctAndReviewQuiz (reply : option CorrectionResponse)
  : CorrectionResponse + Thrown :=
  match reply with
  | Some result => inl result
  | None => inr (ErrorObject "Impossible de corriger le quiz. Une erreur s'est produite.")
  end.

(** ** handleGenerateQuiz *)

Definition generating_updates : Updates :=
  [set_state GENERATING_QUIZ; set_error error_null].

Definition generated_updates (generatedQuestions : list Question) : Updates :=
  [set_questions generatedQuestions; set_userAnswers ∅; set_correction None;
   set_state TAKING_QUIZ].

(** The [catch] blocks of [handleGenerateQuiz] and [handleSubmitQuiz]. *)
Definition failed_updates (err : Thrown) : Updates :=
  [set_error (error_message (errorMessage err)); set_state ERROR].

Definition no_question_error : Thrown :=
  ErrorObject "L'API n'a retourné aucune question. Veuillez vérifier le contenu fourni.".

(** The entries written once [await generateQuiz(...)] has settled. *)
Definition generate_settled_updates (outcome : list Question + Thrown) : Updates :=
  match outcome with
  | inl generatedQuestions =>
      if bool_decide (length generatedQuestions = 0%nat)
      then failed_updates no_question_error
      else generated_updates generatedQuestions
  | inr err => failed_updates err
  end.

(** Up to the [await]. *)
Definition handleGenerateQuiz_begin (now : Z) (app : App) : App :=
  match activeSession app with
  | None => app
  | Some _ =>
      setSessions (updateActiveSession (activeSessionId app) generating_updates now) app
  end.

(** After the [await]: [capturedId] is the [activeSessionId] of the render
    whose closure started the call; [app] is the state at the time the
    promise settles. *)
Definition handleGenerateQuiz_resume (capturedId : option string)
    (outcome : list Question + Thrown) (now : Z) (app : App) : App :=
  setSessions (updateActiveSession capturedId (generate_settled_updates outcome) now) app.

(** The whole handler when nothing else happens while it waits. *)
Definition handleGenerateQuiz (reply : option (list Question))
    (now1 nowApi now2 : Z) (app : App) : App :=
  match activeSession app with
  | None => app
  | Some _ =>
      handleGenerateQuiz_resume (activeSessionId app) (generateQuiz reply nowApi) now2
        (handleGenerateQuiz_begin now1 app)
  end.

(** ** Reading [userAnswers[k]]

    [userAnswers] is a plain object ([{}], a spread of one, or what
    [JSON.parse] returned), so a key that is no own property is looked up
    in [Object.prototype].  The [gmap] holds the own properties.  Of an
    inherited member the program can observe that it is truthy, that it
    has no [includes], and its [length]: every member is a function but
    [__proto__], which reads as [Object.prototype] itself and has no
    [length].  ([Object.prototype] is taken as the language defines it.) *)

Inductive Inherited :=
  | inherited_function (length : Z)
  | inherited_prototype.

Definition Object_prototype_members : list (string * Inherited) :=
  [("constructor", inherited_function 1);
   ("__defineGetter__", inherited_function 2);
   ("__defineSetter__", inherited_function 2);
   ("hasOwnProperty", inherited_function 1);
   ("__lookupGetter__", inherited_function 1);
   ("__lookupSetter__", inherited_function 1);
   ("isPrototypeOf", inherited_function 1);
   ("propertyIsEnumerable", inherited_function 1);
   ("toString", inherited_function 0);
   ("valueOf", inherited_function 0);
   ("__proto__", inherited_prototype);
   ("toLocaleString", inherited_function 0)].

Fixpoint lookupMember (k : string) (members : list (string * Inherited))
  : option Inherited :=
  match members with
  | [] => None
  | m :: rest => if bool_decide (m.1 = k) then Some m.2 else lookupMember k rest
  end.

Definition Object_prototype (k : string) : option Inherited :=
  lookupMember k Object_prototype_members.

(** The value of [userAnswers[k]]. *)
Inductive AnswersValue :=
  | answers_array (l : list string)
  | answers_inherited (m : Inherited)
  | answers_undefined.

Definition readAnswers (answers : UserAnswers) (k : string) : AnswersValue :=
  match answers !! k with
  | Some l => answers_array l
  | None =>
      match Object_prototype k with
      | Some m => answers_inherited m
      | None => answers_undefined
      end
  end.

(** The answers stored for a question: its own entry, an absent entry
    counting as the empty sequence. *)
Definition storedAnswers (answers : UserAnswers) (questionId : string) : list string :=
  default [] (answers !! questionId).

(** ** handleAnswerChange *)

(** [activeSession.userAnswers[questionId] || []]: an array, also an empty
    one, and an inherited member are truthy. *)
Definition currentAnswers (answers : UserAnswers) (questionId : string) : AnswersValue :=
  match readAnswers answers questionId with
  | answers_undefined => answers_array []
  | value => value
  end.

(** The branch [if (isMultiple)] for an array. *)
Definition toggle (currentAnswers : list string) (optionText : string) : list string :=
  if bool_decide (optionText ∈ currentAnswers)
  then filter (λ a, a ≠ optionText) currentAnswers
  else currentAnswers ++ [optionText].

(** The value of [newAnswers] when the update is built; [None] when
    [currentAnswers.includes] is not a function and the call throws a
    [TypeError]. *)
Definition newAnswers (currentAnswers : AnswersValue) (optionText : string)
    (isMultiple : bool) : option (list string) :=
  if isMultiple then
    match currentAnswers with
    | answers_array l => Some (toggle l optionText)
    | answers_inherited _ | answers_undefined => None
    end
  else Some [optionText].

(** [{ userAnswers: { ...activeSession.userAnswers, [questionId]: newAnswers } }] *)
Definition answer_updates (answers : UserAnswers) (questionId : string)
    (newAnswers : list string) : Updates :=
  [set_userAnswers (<[questionId := newAnswers]> answers)].

(** An orphan that has no [userAnswers] makes the handler throw a
    [TypeError] before it updates anything, and so does an inherited
    member found in the place of the answers of a checkbox question. *)
Definition handleAnswerChange (questionId optionText : string) (isMultiple : bool)
    (now : Z) (app : App) : App :=
  match activeSession app with
  | None => app
  | Some o =>
      match obj_userAnswers o with
      | None => app
      | Some answers =>
          match newAnswers (currentAnswers answers questionId) optionText isMultiple with
          | None => app
          | Some l =>
              setSessions
                (updateActiveSession (activeSessionId app)
                   (answer_updates answers questionId l) now) app
          end
      end
  end.

(** ** isQuizAnswered *)

(** [userAnswers[q.id] && userAnswers[q.id].length > 0]: an array and an
    inherited member are truthy; the [length] of [Object.prototype] is
    [undefined], and [undefined > 0] is [false]. *)
Definition answered (answers : UserAnswers) (q : Question) : bool :=
  match readAnswers answers (question_id q) with
  | answers_array l => bool_decide (0 < length l)%nat
  | answers_inherited (inherited_function n) => bool_decide (0 < n)
  | answers_inherited inherited_prototype => false
  | answers_undefined => false
  end.

Definition quizAnswered (qs : list Question) (answers : UserAnswers) : bool :=
  if bool_decide (length qs = 0%nat) then false else forallb (answered answers) qs.

(** [None] when the memo's callback throws a [TypeError] (an orphan
    without [questions], or with questions but without [userAnswers]). *)
Definition isQuizAnswered (app : App) : option bool :=
  match activeSession app with
  | None => Some false
  | Some o =>
      match obj_questions o with
      | None => None
      | Some qs =>
          if bool_decide (length qs = 0%nat) then Some false
          else match obj_userAnswers o with
               | None => None
               | Some answers => Some (forallb (answered answers) qs)
               end
      end
  end.

(** ** handleSubmitQuiz *)

Definition submitting_updates : Updates :=
  [set_state SUBMITTING_QUIZ; set_error error_null].

Definition reviewed_updates (result : CorrectionResponse) : Updates :=
  [set_correction (Some result); set_weakTopics (Some (correction_weakTopics result));
   set_state REVIEWING_QUIZ].

Definition submit_settled_updates (outcome : CorrectionResponse + Thrown) : Updates :=
  match outcome with
  | inl result => reviewed_updates result
  | inr err => failed_updates err
  end.

(** [if (!isQuizAnswered || !activeSession) return;] and the first update. *)
Definition handleSubmitQuiz_begin (now : Z) (app : App) : App :=
  match isQuizAnswered app with
  | Some true =>
      match activeSession app with
      | None => app
      | Some _ =>
          setSessions (updateActiveSession (activeSessionId app) submitting_updates now) app
      end
  | _ => app
  end.

Definition handleSubmitQuiz_resume (capturedId : option string)
    (outcome : CorrectionResponse + Thrown) (now : Z) (app : App) : App :=
  setSessions (updateActiveSession capturedId (submit_settled_updates outcome) now) app.

Definition handleSubmitQuiz (reply : option CorrectionResponse) (now1 now2 : Z)
    (app : App) : App :=
  match isQuizAnswered app with
  | Some true =>
      match activeSession app with
      | None => app
      | Some _ =>
          handleSubmitQuiz_resume (activeSessionId app) (correctAndReviewQuiz reply) now2
            (handleSubmitQuiz_begin now1 app)
      end
  | _ => app
  end.

(** ** resetSession and the inline handlers of the views *)

Definition reset_updates : Updates :=
  [set_state CONFIGURING_QUIZ; set_questions []; set_userAnswers ∅; set_correction None;
   set_error error_null; set_weakTopics None].

Definition resetSession (isNewFile : bool) (confirmed : bool) (now : Z) (app : App) : App :=
  match activeSessionId app with
  | None => app
  | Some i =>
      if isNewFile
      then setActiveSessionId None (handleDeleteSession i confirmed app)
      else setSessions (updateActiveSession (Some i) reset_updates now) app
  end.

(** renderReview, the button "Améliorer mes points faibles". *)
Definition improve_updates : Updates :=
  [set_state CONFIGURING_QUIZ; set_questions []; set_userAnswers ∅; set_correction None;
   set_error error_null].

Definition onImproveWeakTopics (now : Z) (app : App) : App :=
  setSessions (updateActiveSession (activeSessionId app) improve_updates now) app.

(** renderReview, the button "Nouveau Quiz": [resetSession(true)]. *)
Definition onNouveauQuiz (confirmed : bool) (now : Z) (app : App) : App :=
  resetSession true confirmed now app.

(** renderError, the button "Recommencer". *)
Definition acknowledge_updates : Updates :=
  [set_state CONFIGURING_QUIZ; set_error error_null].

Definition onRecommencer (now : Z) (app : App) : App :=
  setSessions (updateActiveSession (activeSessionId app) acknowledge_updates now) app.

(** *** The question-count field of renderQuizConfig *)

Definition isWhiteSpace (c : ascii) : bool :=
  let n := N_of_ascii c in
  bool_decide (n = 9 ∨ n = 10 ∨ n = 11 ∨ n = 12 ∨ n = 13 ∨ n = 32)%N.

Fixpoint trimStart (s : string) : string :=
  match s with
  | String c rest => if isWhiteSpace c then trimStart rest else s
  | EmptyString => s
  end.

Definition digitValue (c : ascii) : option Z :=
  let n := Z.of_N (N_of_ascii c) in
  if bool_decide (48 ≤ n ≤ 57) then Some (n - 48) else None.

(** The value of the longest prefix of decimal digits; [acc] is [None]
    until a digit has been read. *)
Fixpoint leadingDigits (s : string) (acc : option Z) : option Z :=
  match s with
  | String c rest =>
      match digitValue c with
      | Some d => leadingDigits rest (Some (10 * default 0 acc + d))
      | None => acc
      end
  | EmptyString => acc
  end.

(** [parseInt(s, 10)]: skip white space, read a sign, read decimal digits;
    [NaN] when there is no digit, and otherwise the double nearest to
    the integer read.  (A string is a sequence of bytes here; of the
    white space of ECMAScript only the ASCII characters are recognised.
    ECMAScript lets an implementation read the digits after the 20th as
    zeros; the digits are read as they are, as V8 does.) *)
Definition parseInt10 (s : string) : JsNumber :=
  let trimmed := trimStart s in
  let '(sign, body) :=
    match trimmed with
    | String "-" rest => (-1, rest)
    | String "+" rest => (1, rest)
    | _ => (1, trimmed)
    end in
  match leadingDigits body None with
  | Some mathInt => roundToDouble (sign * mathInt)
  | None => NaN
  end.

(** [Math.max(a, b)]: [NaN] as soon as one argument is [NaN]. *)
Definition Math_max (a b : JsNumber) : JsNumber :=
  match a, b with
  | NaN, _ | _, NaN => NaN
  | Infinity, _ | _, Infinity => Infinity
  | NegInfinity, other | other, NegInfinity => other
  | Num x, Num y => Num (Z.max x y)
  end.

(** [{ numQuestions: Math.max(1, parseInt(e.target.value, 10)) }] *)
Definition numQuestions_updates (value : string) : Updates :=
  [set_numQuestions (Math_max (Num 1) (parseInt10 value))].

Definition onNumQuestionsChange (value : string) (now : Z) (app : App) : App :=
  setSessions
    (updateActiveSession (activeSessionId app) (numQuestions_updates value) now) app.

Definition quizType_updates (t : QuizType) : Updates := [set_quizType t].

Definition onQuizTypeClick (t : QuizType) (now : Z) (app : App) : App :=
  setSessions (updateActiveSession (activeSessionId app) (quizType_updates t) now) app.

(** The object literals that handlers pass to [updateActiveSession]:
    every update of a session writes one of these. *)
Inductive issued : Updates → Prop :=
  | issued_numQuestions value : issued (numQuestions_updates value)
  | issued_quizType t : issued (quizType_updates t)
  | issued_generating : issued generating_updates
  | issued_generate_settled outcome : issued (generate_settled_updates outcome)
  | issued_answer answers questionId newAnswers :
      issued (answer_updates answers questionId newAnswers)
  | issued_submitting : issued submitting_updates
  | issued_submit_settled outcome : issued (submit_settled_updates outcome)
  | issued_improve : issued improve_updates
  | issued_acknowledge : issued acknowledge_updates
  | issued_reset : issued reset_updates.

(** ** The life of one session

    [renderActiveSession] shows one view per [state], and each view offers
    only some controls.  [Action] lists what can happen to a session:
    the controls of the views, and the settling of a collaborator call
    that the session is waiting for (in [GENERATING_QUIZ] and
    [SUBMITTING_QUIZ] the view is a [Loader] without controls, so nothing
    else happens to the session until then).  [resetSession(false)] is not
    wired to any control; [CallReset] makes it available in every view
    that has controls.  The controls that delete the session ("Changer de
    fichier", "Nouveau Quiz") end its life and are no actions.  A quiz
    view that throws while it renders offers no control at all; its
    controls are actions all the same, so that the sessions reached
    below include every session the program reaches. *)

Inductive Action :=
  | TypeNumQuestions (value : string)
  | ClickQuizType (t : QuizType)
  | ClickGenerate
  | GenerateSettles (reply : option (list Question)) (nowApi : Z)
  | ChangeAnswer (qIndex oIndex : nat)
  | ClickSubmit
  | SubmitSettles (reply : option CorrectionResponse)
  | ClickImprove
  | ClickRecommencer
  | CallReset.

(** The entries the action writes, or [None] when the view of the
    session's state does not offer it, or when the handler throws before
    it writes. *)
Definition action_updates (a : Action) (s : DocumentSession) : option Updates :=
  match a, state s with
  | TypeNumQuestions value, CONFIGURING_QUIZ => Some (numQuestions_updates value)
  | ClickQuizType t, CONFIGURING_QUIZ => Some (quizType_updates t)
  | ClickGenerate, CONFIGURING_QUIZ =>
      (* disabled={!activeSession?.content} *)
      if bool_decide (content s = "") then None else Some generating_updates
  | GenerateSettles reply nowApi, GENERATING_QUIZ =>
      Some (generate_settled_updates (generateQuiz reply nowApi))
  | ChangeAnswer qIndex oIndex, TAKING_QUIZ =>
      q ← questions s !! qIndex;
      o ← options q !! oIndex;
      l ← newAnswers (currentAnswers (userAnswers s) (question_id q)) (text o)
             (bool_decide (type q = multiple));
      Some (answer_updates (userAnswers s) (question_id q) l)
  | ClickSubmit, TAKING_QUIZ =>
      if quizAnswered (questions s) (userAnswers s) then Some submitting_updates else None
  | SubmitSettles reply, SUBMITTING_QUIZ =>
      Some (submit_settled_updates (correctAndReviewQuiz reply))
  | ClickImprove, REVIEWING_QUIZ =>
      (* the button is rendered when correction.weakTopics is truthy *)
      match correction s with
      | Some c => if bool_decide (correction_weakTopics c = "") then None
                  else Some improve_updates
      | None => None
      end
  | ClickRecommencer, ERROR => Some acknowledge_updates
  | CallReset, (CONFIGURING_QUIZ | TAKING_QUIZ | REVIEWING_QUIZ | ERROR) =>
      Some reset_updates
  | _, _ => None
  end.

Definition act (a : Action) (now : Z) (s : DocumentSession) : option DocumentSession :=
  updates ← action_updates a s; Some (applyUpdates updates now s).

(** [reaches history s]: [s] is a session created by [handleFileChange]
    and then subjected to the actions of [history], latest first. *)
Inductive reaches : list Action → DocumentSession → Prop :=
  | reaches_created (fileName text : string) (now1 now2 : Z) :
      reaches [] (newSession ("session-" +:+ pretty now1) fileName text now2)
  | reaches_act history s a now s' :
      reaches history s → act a now s = Some s' → reaches (a :: history) s'.

Definition generation_succeeded (a : Action) : bool :=
  match a with
  | GenerateSettles reply nowApi =>
      match generateQuiz reply nowApi with
      | inl (_ :: _) => true
      | _ => false
      end
  | _ => false
  end.

Definition submission_succeeded (a : Action) : bool :=
  match a with
  | SubmitSettles (Some _) => true
  | _ => false
  end.

Definition submission_failed (a : Action) : bool :=
  match a with
  | SubmitSettles None => true
  | _ => false
  end.

(** A session subjected to a list of actions, each with its clock
    reading, in the order they happen. *)
Fixpoint run (actions : list (Action * Z)) (s : DocumentSession) : option DocumentSession :=
  match actions with
  | [] => Some s
  | (a, now) :: rest => s' ← act a now s; run rest s'
  end.

(** What holds of every session reached from its creation, together
    with the history that led to it. *)
Record session_inv (history : list Action) (s : DocumentSession) : Prop := {
  inv_correction : state s ≠ REVIEWING_QUIZ → correction s = None;
  inv_graded :
    correction s ≠ None → ∃ a, a ∈ history ∧ submission_succeeded a = true;
  inv_generated :
    questions s ≠ [] ∨ userAnswers s ≠ ∅ →
    ∃ a, a ∈ history ∧ generation_succeeded a = true;
  inv_stale :
    state s = CONFIGURING_QUIZ ∨ state s = GENERATING_QUIZ ∨ state s = ERROR →
    questions s ≠ [] ∨ userAnswers s ≠ ∅ →
    ∃ a, a ∈ history ∧ submission_failed a = true
}.

(** The handler of [App] that performs the action on the active session. *)
Definition perform (a : Action) (now : Z) (app : App) : App :=
  match a with
  | TypeNumQuestions value => onNumQuestionsChange value now app
  | ClickQuizType t => onQuizTypeClick t now app
  | ClickGenerate => handleGenerateQuiz_begin now app
  | GenerateSettles reply nowApi =>
      handleGenerateQuiz_resume (activeSessionId app) (generateQuiz reply nowApi) now app
  | ChangeAnswer qIndex oIndex =>
      match activeSession app with
      | Some (Full s) =>
          match questions s !! qIndex with
          | Some q =>
              match options q !! oIndex with
              | Some o =>
                  handleAnswerChange (question_id q) (text o)
                    (bool_decide (type q = multiple)) now app
              | None => app
              end
          | None => app
          end
      | _ => app
      end
  | ClickSubmit => handleSubmitQuiz_begin now app
  | SubmitSettles reply =>
      handleSubmitQuiz_resume (activeSessionId app) (correctAndReviewQuiz reply) now app
  | ClickImprove => onImproveWeakTopics now app
  | ClickRecommencer => onRecommencer now app
  | CallReset => resetSession false false now app
  end.

(** ** JSON

    [JSON.stringify] and [JSON.parse] are modelled on the data they carry,
    not on the characters: [Json] is the document a JSON text denotes,
    [JsVal] the value held in memory.  An object is the list of its
    properties in insertion order.  A numeral of a document is kept as
    the number [JSON.parse] reads it as, [JNumber z] being a numeral that
    is read as [Num z]; documents with a numeral that is read as a
    fraction or as an infinity are not covered. *)

Inductive Json :=
  | JNull
  | JBool (b : bool)
  | JNumber (z : Z)
  | JString (s : string)
  | JArray (items : list Json)
  | JObject (members : list (string * Json)).

Inductive JsVal :=
  | VUndefined
  | VNull
  | VBool (b : bool)
  | VNumber (n : JsNumber)
  | VString (s : string)
  | VArray (items : list JsVal)
  | VObject (props : list (string * JsVal)).

(** [JSON.stringify]: [None] is the result [undefined]; a property whose
    value is [undefined] is left out, an array element that is
    [undefined] becomes [null], and so does a number that is not finite. *)
Fixpoint serialize (v : JsVal) : option Json :=
  match v with
  | VUndefined => None
  | VNull => Some JNull
  | VBool b => Some (JBool b)
  | VNumber (Num z) => Some (JNumber z)
  | VNumber (NaN | Infinity | NegInfinity) => Some JNull
  | VString s => Some (JString s)
  | VArray items =>
      Some (JArray (map (λ x, default JNull (serialize x)) items))
  | VObject props =>
      Some (JObject
              (omap (λ p, match serialize p.2 with
                          | Some j => Some (p.1, j)
                          | None => None
                          end) props))
  end.

(** [obj[k] = v] on a property list: an existing key keeps its place. *)
Fixpoint defineProperty (k : string) (v : JsVal) (props : list (string * JsVal))
  : list (string * JsVal) :=
  match props with
  | [] => [(k, v)]
  | p :: rest =>
      if bool_decide (p.1 = k) then (k, v) :: rest
      else p :: defineProperty k v rest
  end.

(** [JSON.parse] of a well-formed text: members are defined in the order
    of the text, a repeated key keeping its last value. *)
Fixpoint parse (j : Json) : JsVal :=
  match j with
  | JNull => VNull
  | JBool b => VBool b
  | JNumber z => VNumber (Num z)
  | JString s => VString s
  | JArray items => VArray (map parse items)
  | JObject members =>
      VObject (foldl (λ props p, defineProperty p.1 p.2 props) []
                 (map (λ m, (m.1, parse m.2)) members))
  end.

Fixpoint lookupProp (k : string) (props : list (string * JsVal)) : option JsVal :=
  match props with
  | [] => None
  | p :: rest => if bool_decide (p.1 = k) then Some p.2 else lookupProp k rest
  end.

(** [v[k]] for an object [v]; a missing property reads [undefined]. *)
Definition getProp (k : string) (v : JsVal) : JsVal :=
  match v with
  | VObject props => default VUndefined (lookupProp k props)
  | _ => VUndefined
  end.

(** *** The session store as a value in memory *)

Definition SessionState_toJs (s : SessionState) : JsVal :=
  VNumber (Num match s with
               | CONFIGURING_QUIZ => 0
               | GENERATING_QUIZ => 1
               | TAKING_QUIZ => 2
               | SUBMITTING_QUIZ => 3
               | REVIEWING_QUIZ => 4
               | ERROR => 5
               end).

Definition QuizType_toJs (t : QuizType) : JsVal :=
  VString match t with
          | SINGLE => "Réponse Unique"
          | MULTIPLE => "Réponses Multiples"
          | MIXED => "Mixte"
          end.

Definition strings_toJs (l : list string) : JsVal := VArray (VString <$> l).

Definition Option_toJs (o : Option) : JsVal :=
  VObject [("text", VString (text o)); ("isCorrect", VBool (isCorrect o))].

Definition Question_toJs (q : Question) : JsVal :=
  VObject [("id", VString (question_id q));
           ("questionText", VString (questionText q));
           ("options", VArray (Option_toJs <$> options q));
           ("type", VString match type q with
                            | single => "single"
                            | multiple => "multiple"
                            end)].

Definition UserAnswers_toJs (answers : UserAnswers) : JsVal :=
  VObject ((λ p, (p.1, strings_toJs p.2)) <$> map_to_list answers).

Definition QuizResult_toJs (r : QuizResult) : JsVal :=
  VObject [("questionText", VString (result_questionText r));
           ("userAnswer", strings_toJs (userAnswer r));
           ("correctAnswer", strings_toJs (correctAnswer r));
           ("isCorrect", VBool (result_isCorrect r));
           ("feedbackFR", VString (feedbackFR r));
           ("feedbackAR", VString (feedbackAR r))].

Definition CorrectionResponse_toJs (c : CorrectionResponse) : JsVal :=
  VObject [("results", VArray (QuizResult_toJs <$> results c));
           ("weakTopics", VString (correction_weakTopics c))].

Definition ErrorField_toJs (e : ErrorField) : JsVal :=
  match e with
  | error_undefined => VUndefined
  | error_null => VNull
  | error_message m => VString m
  end.

(** The property a [key: value] entry defines. *)
Definition entry_toJs (f : FieldUpdate) : string * JsVal :=
  match f with
  | set_fileName v => ("fileName", VString v)
  | set_content v => ("content", VString v)
  | set_quizType v => ("quizType", QuizType_toJs v)
  | set_numQuestions v => ("numQuestions", VNumber v)
  | set_questions v => ("questions", VArray (Question_toJs <$> v))
  | set_userAnswers v => ("userAnswers", UserAnswers_toJs v)
  | set_correction v => ("correction", from_option CorrectionResponse_toJs VNull v)
  | set_weakTopics v => ("weakTopics", from_option VString VUndefined v)
  | set_lastAccessed v => ("lastAccessed", VNumber (Num v))
  | set_state v => ("state", SessionState_toJs v)
  | set_error v => ("error", ErrorField_toJs v)
  end.

(** The entries of a whole session after its [id]. *)
Definition session_entries (s : DocumentSession) : Updates :=
  [set_fileName (fileName s); set_content (content s);
   set_quizType (quizType s); set_numQuestions (numQuestions s);
   set_questions (questions s); set_userAnswers (userAnswers s);
   set_correction (correction s); set_weakTopics (weakTopics s);
   set_lastAccessed (lastAccessed s); set_state (state s);
   set_error (error s)].

Definition DocumentSession_toJs (s : DocumentSession) : JsVal :=
  VObject (("id", VString (session_id s)) :: (entry_toJs <$> session_entries s)).

Definition SessionObj_toJs (o : SessionObj) : JsVal :=
  match o with
  | Full s => DocumentSession_toJs s
  | Orphan entries =>
      VObject (foldl (λ props p, defineProperty p.1 p.2 props) [] (entry_toJs <$> entries))
  end.

Definition Sessions_toJs (store : Sessions) : JsVal :=
  VObject ((λ p, (p.1, SessionObj_toJs p.2)) <$> map_to_list store).

(** What the load effect puts in memory after the save effect has
    written [store]: [JSON.parse(JSON.stringify(sessions))]. *)
Definition reload (v : JsVal) : JsVal :=
  match serialize v with
  | Some j => parse j
  | None => VUndefined
  end.

(** Values that [JSON.stringify] followed by [JSON.parse] gives back as
    they are: no [undefined], no number that is not finite, no object
    with a repeated key. *)
Fixpoint jsonSafe (v : JsVal) : bool :=
  match v with
  | VUndefined => false
  | VNumber (NaN | Infinity | NegInfinity) => false
  | VArray items => forallb jsonSafe items
  | VObject props =>
      forallb (λ p, jsonSafe p.2) props && bool_decide (NoDup (props.*1))
  | _ => true
  end.

Definition isFinite (n : JsNumber) : bool :=
  match n with
  | Num _ => true
  | NaN | Infinity | NegInfinity => false
  end.

(** The question count of a stored object is a finite number. *)
Definition numbers_ok (o : SessionObj) : Prop :=
  match o with
  | Full s => isFinite (numQuestions s) = true
  | Orphan entries => ∀ n, set_numQuestions n ∈ entries → isFinite n = true
  end.

(** What [reload] gives for one property of an object: nothing when the
    value does not serialize. *)
Definition reloadProp (p : string * JsVal) : option (string * JsVal) :=
  match serialize p.2 with
  | Some j => Some (p.1, parse j)
  | None => None
  end.

(** [v] is written and read back as it is. *)
Definition comes_back (v : JsVal) : Prop := ∃ j, serialize v = Some j ∧ parse j = v.

(** ** The two effects of [App] and durable storage

    The value kept under [APP_STORAGE_KEY] is a string; what matters of
    it is how [JSON.parse] reads it: as a document, or not at all. *)
Inductive StoredText :=
  | Malformed (raw : string)
  | Document (j : Json).

(** [String(JSON.stringify(v))], the argument [setItem] receives. *)
Definition stringify (v : JsVal) : StoredText :=
  match serialize v with
  | Some j => Document j
  | None => Malformed "undefined"
  end.

(** The pair of [useState] cells the effects depend on. *)
Record Cells := { cell_sessions : JsVal; cell_isLoaded : bool }.

Inductive Effect := LoadEffect | SaveEffect.

Inductive IO :=
  | LoadFinished
  | SetItem (value : StoredText) (accepted : bool).

(** [current] holds the cells with every queued update applied;
    [rendered] holds the values the closures of the last render see;
    [dirty] tells that an update was queued since that render. *)
Record Browser := {
  current : Cells;
  rendered : Cells;
  dirty : bool;
  pendingEffects : list Effect;
  localStorage : option StoredText;
  log : list IO
}.

(** The first render: both effects are pending, in source order. *)
Definition mount (stored : option StoredText) : Browser :=
  let cells := {| cell_sessions := VObject []; cell_isLoaded := false |} in
  {| current := cells; rendered := cells; dirty := false;
     pendingEffects := [LoadEffect; SaveEffect];
     localStorage := stored; log := [] |}.

(** The load effect: [setSessions(JSON.parse(saved))] when the key holds
    a non-empty string that parses, then [setIsLoaded(true)]. *)
Definition loadEffect (b : Browser) : Browser :=
  let loaded :=
    match localStorage b with
    | Some (Document j) => parse j
    | Some (Malformed _) | None => cell_sessions (current b)
    end in
  {| current := {| cell_sessions := loaded; cell_isLoaded := true |};
     rendered := rendered b; dirty := true;
     pendingEffects := pendingEffects b;
     localStorage := localStorage b; log := LoadFinished :: log b |}.

(** The save effect: [if (!isLoaded) return;] then [setItem], which
    throws when the quota is exceeded ([accepted] is [false]). *)
Definition saveEffect (accepted : bool) (b : Browser) : Browser :=
  if cell_isLoaded (rendered b) then
    let value := stringify (cell_sessions (rendered b)) in
    {| current := current b; rendered := rendered b; dirty := dirty b;
       pendingEffects := pendingEffects b;
       localStorage := if accepted then Some value else localStorage b;
       log := SetItem value accepted :: log b |}
  else b.

Definition runEffect (e : Effect) (accepted : bool) (b : Browser) : Browser :=
  match e with
  | LoadEffect => loadEffect b
  | SaveEffect => saveEffect accepted b
  end.

(** The next pending effect runs (the effects of a commit run in source
    order, with the values of that render). *)
Definition flushEffect (accepted : bool) (b : Browser) : option Browser :=
  match pendingEffects b with
  | e :: rest =>
      Some (runEffect e accepted
              {| current := current b; rendered := rendered b; dirty := dirty b;
                 pendingEffects := rest;
                 localStorage := localStorage b; log := log b |})
  | [] => None
  end.

(** A queued update re-renders once the pending effects have run;
    [sessions] or [isLoaded] has changed, so the save effect is due. *)
Definition render (b : Browser) : option Browser :=
  match pendingEffects b with
  | [] =>
      if dirty b then
        Some {| current := current b; rendered := current b; dirty := false;
                pendingEffects := [SaveEffect];
                localStorage := localStorage b; log := log b |}
      else None
  | _ :: _ => None
  end.

(** Some handler calls [setSessions(prev => f(prev))]. *)
Definition queueSetSessions (f : JsVal → JsVal) (b : Browser) : Browser :=
  {| current := {| cell_sessions := f (cell_sessions (current b));
                   cell_isLoaded := cell_isLoaded (current b) |};
     rendered := rendered b; dirty := true;
     pendingEffects := pendingEffects b;
     localStorage := localStorage b; log := log b |}.

(** Handlers are not restricted to run after the load: the model lets
    the store change at any time, also before the load effect. *)
Inductive step : Browser → Browser → Prop :=
  | step_effect accepted b b' : flushEffect accepted b = Some b' → step b b'
  | step_render b b' : render b = Some b' → step b b'
  | step_setSessions f b : step b (queueSetSessions f b).

Inductive runs (stored : option StoredText) : Browser → Prop :=
  | runs_mount : runs stored (mount stored)
  | runs_step b b' : runs stored b → step b b' → runs stored b'.

Definition isSetItem (io : IO) : bool :=
  match io with
  | SetItem _ _ => true
  | LoadFinished => false
  end.

(** A start-up without interference: the two effects of the first commit,
    the re-render, and the save effect it schedules. *)
Definition startup (stored : option StoredText) : Browser :=
  let b0 := mount stored in
  let b1 := default b0 (flushEffect true b0) in
  let b2 := default b1 (flushEffect true b1) in
  let b3 := default b2 (render b2) in
  default b3 (flushEffect true b3).

(** What holds of the browser after any number of steps from a start
    with [stored] in storage. *)
Record browser_inv (stored : option StoredText) (b : Browser) : Prop := {
  inv_rendered : cell_isLoaded (rendered b) = true → cell_isLoaded (current b) = true;
  inv_loaded : cell_isLoaded (current b) = true → LoadFinished ∈ log b;
  inv_order : ∀ later value accepted earlier,
    log b = later ++ SetItem value accepted :: earlier → LoadFinished ∈ earlier;
  inv_written : ∀ io, io ∈ log b → isSetItem io = true → cell_isLoaded (current b) = true;
  inv_untouched : (∀ io, io ∈ log b → isSetItem io = false) → localStorage b = stored
}.

(** ** A sample run, used to exercise the statements below

    One document is uploaded; a quiz of one multiple-choice question is
    generated, answered and graded. *)

Definition sample_question : Question :=
  {| question_id := "q1";
     questionText := "Which of these are prime?";
     options := [ {| text := "2"; isCorrect := true |};
                  {| text := "3"; isCorrect := true |};
                  {| text := "4"; isCorrect := false |} ];
     type := multiple |}.

Definition sample_correction : CorrectionResponse :=
  {| results := [ {| result_questionText := "Which of these are prime?";
                     userAnswer := ["2"];
                     correctAnswer := ["2"; "3"];
                     result_isCorrect := false;
                     feedbackFR := "3 est premier aussi.";
                     feedbackAR := "3" |} ];
     correction_weakTopics := "Nombres premiers" |}.

Definition sample_empty : App := {| sessions := ∅; activeSessionId := None |}.

Definition sample_configuring : App :=
  handleFileChange (Some {| name := "doc1"; file_text := Some "Primes." |}) 100 100
    sample_empty.

Definition sample_generating : App := handleGenerateQuiz_begin 110 sample_configuring.

Definition sample_taking : App :=
  handleGenerateQuiz_resume (Some "session-100")
    (generateQuiz (Some [sample_question]) 120) 120 sample_generating.

Definition sample_answered : App := handleAnswerChange "q1" "2" true 130 sample_taking.

Definition sample_submitting : App := handleSubmitQuiz_begin 140 sample_answered.

Definition sample_reviewing : App :=
  handleSubmitQuiz_resume (Some "session-100")
    (correctAndReviewQuiz (Some sample_correction)) 150 sample_submitting.

(** The grader fails instead, and the user acknowledges the error. *)
Definition sample_grading_failed : App :=
  handleSubmitQuiz_resume (Some "session-100") (correctAndReviewQuiz None) 150
    sample_submitting.

Definition sample_acknowledged : App := onRecommencer 160 sample_grading_failed.

(** The user empties the question-count field. *)
Definition sample_count_cleared : App := onNumQuestionsChange "" 105 sample_configuring.

(** The user selects a second option. *)
Definition sample_two_answers : App := handleAnswerChange "q1" "3" true 131 sample_answered.

(** The same run as a list of actions on the session. *)
Definition sample_created : DocumentSession :=
  newSession ("session-" +:+ pretty 100) "doc1" "Primes." 100.

(** The actions behind [sample_acknowledged]. *)
Definition sample_failed_grading : list (Action * Z) :=
  [(ClickGenerate, 110); (GenerateSettles (Some [sample_question]) 120, 120);
   (ChangeAnswer 0 0, 130); (ClickSubmit, 140); (SubmitSettles None, 150);
   (ClickRecommencer, 160)].

(** The storage holds an empty session map. *)
Definition sample_stored : option StoredText := Some (Document (JObject [])).

Definition sample_started : Browser := startup sample_stored.

(** * The rest of the program *)

(** ** renderActiveSession and renderQuiz

    What a render function does with the active session: it returns
    [null], it returns a view, or it throws a [TypeError]; React then
    unmounts the application, which has no error boundary, and the page
    stays empty.  Of the quiz view the model keeps the [checked]
    attribute of every input, question by question. *)

Inductive View :=
  | QuizConfig
  | Loader (text : string)
  | Quiz (checked : list (list bool))
  | Review
  | ErrorPanel.

Inductive Rendered :=
  | returns_null
  | returns (view : View)
  | throws_TypeError.

(** [activeSession?.userAnswers[q.id]?.includes(option.text)] for the
    option [opt], and then
    [checked={isSelected || false}]; [None] when the value found is no
    array, so that [includes] is [undefined] and the call throws. *)
Definition isSelected (s : DocumentSession) (q : Question) (opt : Option)
  : option bool :=
  match readAnswers (userAnswers s) (question_id q) with
  | answers_array l => Some (bool_decide (text opt ∈ l))
  | answers_inherited _ => None
  | answers_undefined => Some false
  end.

Definition renderQuiz (s : DocumentSession) : Rendered :=
  match mapM (λ q, mapM (isSelected s q) (options q)) (questions s) with
  | Some checked => returns (Quiz checked)
  | None => throws_TypeError
  end.

(** [if (!activeSession?.correction) return null;] *)
Definition renderReview (s : DocumentSession) : Rendered :=
  match correction s with
  | Some _ => returns Review
  | None => returns_null
  end.

Definition renderActiveSession (activeSession : option DocumentSession) : Rendered :=
  match activeSession with
  | None => returns_null
  | Some s =>
      match state s with
      | CONFIGURING_QUIZ => returns QuizConfig
      | GENERATING_QUIZ => returns (Loader "Génération du quiz en cours...")
      | TAKING_QUIZ => renderQuiz s
      | SUBMITTING_QUIZ => returns (Loader "Correction de vos réponses...")
      | REVIEWING_QUIZ => renderReview s
      | ERROR => returns ErrorPanel
      end
  end.

(** ** renderDocumentSelection: the sorted list

    [Array.prototype.sort] is stable and, for a consistent comparator,
    sorts; any stable sort then returns the same array.  The model is the
    stable insertion sort: [a] goes behind [b] only when the comparator
    returns a positive number for [(a, b)] ([NaN] counts as [+0]).  For an
    inconsistent comparator ECMAScript leaves the order to the
    implementation. *)

Definition isPositive (n : JsNumber) : bool :=
  match n with
  | Num z => bool_decide (0 < z)
  | Infinity => true
  | NaN | NegInfinity => false
  end.

Fixpoint sortInsert {A} (comparefn : A → A → JsNumber) (a : A) (sorted : list A)
  : list A :=
  match sorted with
  | [] => [a]
  | b :: rest =>
      if isPositive (comparefn a b) then b :: sortInsert comparefn a rest
      else a :: b :: rest
  end.

Definition Array_sort {A} (comparefn : A → A → JsNumber) (array : list A) : list A :=
  foldr (sortInsert comparefn) [] array.

(** [o.lastAccessed]; [None] is [undefined]. *)
Definition obj_lastAccessed (o : SessionObj) : option Z :=
  match o with
  | Full s => Some (lastAccessed s)
  | Orphan entries =>
      last (omap (λ f, match f with set_lastAccessed v => Some v | _ => None end) entries)
  end.

(** [(a, b) => b.lastAccessed - a.lastAccessed] *)
Definition byLastAccessed (a b : SessionObj) : JsNumber :=
  match obj_lastAccessed b, obj_lastAccessed a with
  | Some x, Some y => Num (x - y)
  | _, _ => NaN
  end.

(** [Object.values(sessions).sort(...)]; [values] is [Object.values(sessions)],
    the stored objects in the order of their keys in the object. *)
Definition sortedSessions (values : list SessionObj) : list SessionObj :=
  Array_sort byLastAccessed values.

(** [a] is listed before [b]: both carry a time stamp and that of [a] is
    not the older one. *)
Definition not_older (a b : SessionObj) : Prop :=
  ∃ x y, obj_lastAccessed a = Some x ∧ obj_lastAccessed b = Some y ∧ y ≤ x.

(** ** correctAndReviewQuiz: what is sent to the grader *)

Record QuizDatum := {
  datum_questionText : string;
  datum_options : list string;
  correctAnswers : list string;
  datum_userAnswer : AnswersValue
}.

Definition quizData (questions : list Question) (userAnswers : UserAnswers)
  : list QuizDatum :=
  (λ q, {| datum_questionText := questionText q;
           datum_options := text <$> options q;
           correctAnswers := text <$> filter (λ opt, isCorrect opt = true) (options q);
           datum_userAnswer := currentAnswers userAnswers (question_id q) |})
    <$> questions.

(** ** generateQuiz: the identifiers

    [questionsArray.map((q, index) => ({ ...q, id: q.id || `q-${Date.now()}-${index}` }))]
    with the clock read anew for each question that needs an identifier:
    [clock index] is what [Date.now()] returns for the question at
    [index].  [generateQuiz] above is the case of a clock that stands
    still during the call. *)
Definition patchIds (clock : nat → Z) (questionsArray : list Question) : list Question :=
  imap (λ index q,
          if bool_decide (question_id q = "")
          then {| question_id := "q-" +:+ pretty (clock index) +:+ "-" +:+ pretty index;
                  questionText := questionText q;
                  options := options q;
                  type := type q |}
          else q) questionsArray.

(** The text after the last ["-"] of [s], if [s] has one. *)
Fixpoint afterLastDash (s : string) : option string :=
  match s with
  | EmptyString => None
  | String c rest =>
      match afterLastDash rest with
      | Some t => Some t
      | None => if Ascii.eqb c "-" then Some rest else None
      end
  end.

(** ** generateQuiz: the envelope

    [Object.keys] lists the keys that are array indices first, in
    ascending order, then the other keys in insertion order. *)

(** The array index a key spells, if any: a canonical decimal numeral
    below 2^32 - 1. *)
Definition arrayIndex (k : string) : option Z :=
  match leadingDigits k None with
  | Some n => if bool_decide (pretty n = k ∧ n ≤ 4294967294) then Some n else None
  | None => None
  end.

(** The property with the least array index among [props], if there is one. *)
Fixpoint leastIndex (props : list (string * JsVal)) : option (Z * JsVal) :=
  match props with
  | [] => None
  | (k, v) :: rest =>
      match arrayIndex k, leastIndex rest with
      | Some n, Some (m, w) => if bool_decide (n < m) then Some (n, v) else Some (m, w)
      | Some n, None => Some (n, v)
      | None, least => least
      end
  end.

(** [parsed[Object.keys(parsed)[0]]] for an object with the properties
    [props]; [undefined] when it has none. *)
Definition firstValue (props : list (string * JsVal)) : JsVal :=
  match leastIndex props with
  | Some (_, v) => v
  | None => match props with
            | (_, v) :: _ => v
            | [] => VUndefined
            end
  end.

(** Lines 521-525 of the service: [parsed] is the value [JSON.parse]
    returned; [None] when the code throws (a [TypeError] on [null], or the
    explicit [Error] when the value found is not an array), which the
    [catch] turns into the one failure of [generateQuiz].  Of a string
    only a one-character string can be found, of a number or a boolean
    nothing. *)
Definition questionsArray (parsed : JsVal) : option (list JsVal) :=
  match parsed with
  | VArray items => Some items
  | VObject props =>
      match firstValue props with
      | VArray items => Some items
      | _ => None
      end
  | _ => None
  end.

(** ** Invariants of the session store and of a session *)

(** Every whole session is stored under its own [id]. *)
Definition store_wf (store : Sessions) : Prop :=
  ∀ i s, store !! i = Some (Full s) → session_id s = i.

Definition optionTexts (q : Question) : list string := text <$> options q.

(** What every session reached from its creation satisfies, besides
    [session_inv]. *)
Record quiz_inv (s : DocumentSession) : Prop := {
  qi_review :
    state s = REVIEWING_QUIZ →
    ∃ c, correction s = Some c ∧ weakTopics s = Some (correction_weakTopics c);
  qi_questions :
    state s = TAKING_QUIZ ∨ state s = SUBMITTING_QUIZ ∨ state s = REVIEWING_QUIZ →
    questions s ≠ [];
  qi_answered :
    state s = SUBMITTING_QUIZ ∨ state s = REVIEWING_QUIZ →
    quizAnswered (questions s) (userAnswers s) = true;
  qi_error :
    match error s with
    | error_message m => state s = ERROR ∧ m ≠ ""
    | _ => state s ≠ ERROR
    end;
  qi_nodup : ∀ qid l, userAnswers s !! qid = Some l → NoDup l;
  qi_options :
    ∀ qid l, userAnswers s !! qid = Some l →
      (∃ q, q ∈ questions s ∧ question_id q = qid) ∧
      ∀ a, a ∈ l → ∃ q, q ∈ questions s ∧ question_id q = qid ∧ a ∈ optionTexts q;
  qi_count :
    numQuestions s = NaN ∨ numQuestions s = Infinity ∨
    ∃ z, numQuestions s = Num z ∧ 1 ≤ z
}.

(** The run of the sample up to the review, as actions on the session. *)
Definition sample_graded : list (Action * Z) :=
  [(ClickGenerate, 110); (GenerateSettles (Some [sample_question]) 120, 120);
   (ChangeAnswer 0 0, 130); (ClickSubmit, 140);
   (SubmitSettles (Some sample_correction), 150)].

(** A quiz whose one question the generator called [constructor], and
    gave no option. *)
Definition sample_inherited_question : Question :=
  {| question_id := "constructor";
     questionText := "Which of these are prime?";
     options := [];
     type := single |}.

Definition sample_inherited : App :=
  handleGenerateQuiz_resume (Some "session-100")
    (generateQuiz (Some [sample_inherited_question]) 120) 120 sample_generating.

(** The same with the options of [sample_question], under a checkbox. *)
Definition sample_inherited_options : App :=
  handleGenerateQuiz_resume (Some "session-100")
    (generateQuiz (Some [{| question_id := "constructor";
                            questionText := "Which of these are prime?";
                            options := options sample_question;
                            type := multiple |}]) 120) 120 sample_generating.

(** The session is deleted while its quiz is being generated. *)
Definition sample_deleted_meanwhile : App :=
  handleDeleteSession "session-100" true (setActiveSessionId None sample_generating).

(** A second document, uploaded later. *)
Definition sample_two_documents : App :=
  handleFileChange (Some {| name := "doc2"; file_text := Some "Squares." |}) 200 200
    sample_answered.

(** [Object.values] of the store of [sample_two_documents]. *)
Definition sample_values : list SessionObj :=
  [Full (session_of sample_answered);
   Full (newSession "session-200" "doc2" "Squares." 200)].

(** * Properties *)

(** ** Updates of the store *)

Section store.
Context (app : App) (s : DocumentSession).
Hypothesis Hactive : activeSession app = Some (Full s).

Lemma active_update updates now :
  activeSession (setSessions (updateActiveSession (activeSessionId app) updates now) app)
  = Some (Full (applyUpdates updates now s)).
Proof using Hactive.
  revert Hactive. unfold activeSession, setSessions, updateActiveSession. simpl.
  destruct (activeSessionId app) as [i|]; [|done].
  intros ->. by rewrite lookup_insert_eq.
Qed.

Lemma isQuizAnswered_full :
  isQuizAnswered app = Some (quizAnswered (questions s) (userAnswers s)).
Proof using Hactive.
  unfold isQuizAnswered, quizAnswered. rewrite Hactive. simpl.
  by case_bool_decide.
Qed.
End store.

Lemma updateActiveSession_lookup i updates now (prev : Sessions) :
  updateActiveSession (Some i) updates now prev !! i
  = Some (spread (prev !! i) updates now).
Proof. unfold updateActiveSession. by rewrite lookup_insert_eq. Qed.

(** ** The submit guard *)

Lemma answered_spec (answers : UserAnswers) q :
  answered answers q = true ↔
  (∃ a, answers !! question_id q = Some a ∧ a ≠ []) ∨
  (answers !! question_id q = None ∧
   ∃ n, Object_prototype (question_id q) = Some (inherited_function n) ∧ 0 < n).
Proof.
  unfold answered, readAnswers.
  destruct (answers !! question_id q) as [[|x a]|].
  - split; [done|]. by intros [(a & [= <-] & ?)|[? _]].
  - split; [|done]. intros _. left. by exists (x :: a).
  - destruct (Object_prototype (question_id q)) as [[n|]|].
    + rewrite bool_decide_eq_true. split.
      * intros Hn. right. split; [done|]. by exists n.
      * by intros [(a & ? & _)|[_ (n' & [= <-] & ?)]].
    + split; [done|]. by intros [(a & ? & _)|[_ (n' & ? & _)]].
    + split; [done|]. by intros [(a & ? & _)|[_ (n' & ? & _)]].
Qed.

Lemma quizAnswered_spec qs (answers : UserAnswers) :
  quizAnswered qs answers = true ↔
  qs ≠ [] ∧
  ∀ q, q ∈ qs →
    (∃ a, answers !! question_id q = Some a ∧ a ≠ []) ∨
    (answers !! question_id q = None ∧
     ∃ n, Object_prototype (question_id q) = Some (inherited_function n) ∧ 0 < n).
Proof.
  unfold quizAnswered. case_bool_decide as Hlen.
  - destruct qs; [|done]. split; [done|]. by intros [? _].
  - rewrite forallb_forall. split.
    + intros Hall. split; [by intros ->|].
      intros q Hq. apply answered_spec, Hall. by apply list_elem_of_In.
    + intros [_ Hall] q Hq. apply answered_spec, Hall. by apply list_elem_of_In.
Qed.

(** When no identifier of the quiz names a member of [Object.prototype],
    the guard looks at the stored answers only. *)
Lemma quizAnswered_own qs (answers : UserAnswers) :
  (∀ q, q ∈ qs → Object_prototype (question_id q) = None) →
  quizAnswered qs answers = true ↔
  qs ≠ [] ∧ ∀ q, q ∈ qs → ∃ a, answers !! question_id q = Some a ∧ a ≠ [].
Proof.
  intros Hids. rewrite quizAnswered_spec. split; intros [Hne Hall]; (split; [done|]).
  - intros q Hq. destruct (Hall q Hq) as [?|[_ (n & Hn & _)]]; [done|].
    by rewrite (Hids q Hq) in Hn.
  - intros q Hq. left. auto.
Qed.

Lemma handleSubmitQuiz_begin_rejected app now :
  isQuizAnswered app ≠ Some true → handleSubmitQuiz_begin now app = app.
Proof.
  unfold handleSubmitQuiz_begin. by destruct (isQuizAnswered app) as [[]|].
Qed.

Lemma handleSubmitQuiz_rejected app reply now1 now2 :
  isQuizAnswered app ≠ Some true → handleSubmitQuiz reply now1 now2 app = app.
Proof.
  unfold handleSubmitQuiz. by destruct (isQuizAnswered app) as [[]|].
Qed.

(** C1, as the code has it.  For a quiz none of whose identifiers names
    a member that plain objects inherit, the guard [isQuizAnswered] holds
    if and only if the active session has at least one question and
    every question [q] of it has an entry [userAnswers[q.id]] that is a
    non-empty sequence; with no question at all the guard does not hold.
    When the guard does not hold, [handleSubmitQuiz] leaves the
    application state, and with it the session, unchanged. *)
Theorem submit_guard app s :
  activeSession app = Some (Full s) →
  (∀ q, q ∈ questions s → Object_prototype (question_id q) = None) →
  (isQuizAnswered app = Some true ↔
     questions s ≠ [] ∧
     ∀ q, q ∈ questions s → ∃ a, userAnswers s !! question_id q = Some a ∧ a ≠ [])
  ∧ (isQuizAnswered app ≠ Some true →
     ∀ reply now1 now2,
       handleSubmitQuiz_begin now1 app = app ∧
       handleSubmitQuiz reply now1 now2 app = app).
Proof.
  intros Hactive Hids. split.
  - rewrite (isQuizAnswered_full _ _ Hactive), <- (quizAnswered_own _ _ Hids).
    split; [by intros [= ->]|by intros ->].
  - intros Hguard reply now1 now2.
    by rewrite handleSubmitQuiz_begin_rejected, handleSubmitQuiz_rejected.
Qed.

Lemma submit_guard_witness :
  let app := sample_answered in
  let s := session_of app in
  activeSession app = Some (Full s) ∧
  (∀ q, q ∈ questions s → Object_prototype (question_id q) = None) ∧
  (isQuizAnswered app = Some true ↔
     questions s ≠ [] ∧
     ∀ q, q ∈ questions s → ∃ a, userAnswers s !! question_id q = Some a ∧ a ≠ []).
Proof.
  split; [vm_compute; reflexivity|].
  assert (∀ q, q ∈ questions (session_of sample_answered) →
               Object_prototype (question_id q) = None) as Hids.
  { intros q Hq. vm_compute in Hq. apply list_elem_of_singleton in Hq as ->.
    vm_compute; reflexivity. }
  split; [exact Hids|].
  apply (submit_guard sample_answered (session_of sample_answered));
    [vm_compute; reflexivity|exact Hids].
Defined.

(** C1 as stated fails on a session without questions: every question
    (there is none) is answered, yet the guard does not hold. *)
Lemma submit_guard_empty_quiz :
  let app := sample_configuring in
  let s := session_of app in
  activeSession app = Some (Full s) ∧
  ¬ (isQuizAnswered app = Some true ↔
     ∀ q, q ∈ questions s → ∃ a, userAnswers s !! question_id q = Some a ∧ a ≠ []).
Proof.
  split; [vm_compute; reflexivity|].
  intros [_ Hguard].
  assert (isQuizAnswered sample_configuring = Some true) as Habsurd.
  { apply Hguard. intros q Hq. vm_compute in Hq. by apply elem_of_nil in Hq. }
  vm_compute in Habsurd. discriminate Habsurd.
Qed.

(** ** Generation *)

Lemma generateQuiz_throws reply nowApi err :
  generateQuiz reply nowApi = inr err → errorMessage err ≠ "".
Proof. destruct reply; simpl; [done|]. by intros [= <-]. Qed.



(** ** Answers *)

Lemma handleAnswerChange_full app s questionId optionText isMultiple now l :
  activeSession app = Some (Full s) →
  newAnswers (currentAnswers (userAnswers s) questionId) optionText isMultiple = Some l →
  activeSession (handleAnswerChange questionId optionText isMultiple now app)
  = Some (Full (applyUpdates (answer_updates (userAnswers s) questionId l) now s)).
Proof.
  intros Hactive Hnew. unfold handleAnswerChange. rewrite Hactive. simpl.
  rewrite Hnew. by apply active_update.
Qed.

Lemma handleAnswerChange_throws app s questionId optionText isMultiple now :
  activeSession app = Some (Full s) →
  newAnswers (currentAnswers (userAnswers s) questionId) optionText isMultiple = None →
  handleAnswerChange questionId optionText isMultiple now app = app.
Proof.
  intros Hactive Hnew. unfold handleAnswerChange. rewrite Hactive. simpl.
  by rewrite Hnew.
Qed.

Lemma userAnswers_answered (s : DocumentSession) questionId l now :
  userAnswers (applyUpdates (answer_updates (userAnswers s) questionId l) now s)
  = <[questionId := l]> (userAnswers s).
Proof. by destruct s. Qed.

Lemma storedAnswers_insert (answers : UserAnswers) q l :
  storedAnswers (<[q := l]> answers) q = l.
Proof. unfold storedAnswers. by rewrite lookup_insert_eq. Qed.

Lemma storedAnswers_insert_ne (answers : UserAnswers) q q' l :
  q ≠ q' → storedAnswers (<[q := l]> answers) q' = storedAnswers answers q'.
Proof. intros. unfold storedAnswers. by rewrite lookup_insert_ne. Qed.

Lemma readAnswers_insert (answers : UserAnswers) q l :
  readAnswers (<[q := l]> answers) q = answers_array l.
Proof. unfold readAnswers. by rewrite lookup_insert_eq. Qed.

Lemma readAnswers_insert_ne (answers : UserAnswers) q q' l :
  q ≠ q' → readAnswers (<[q := l]> answers) q' = readAnswers answers q'.
Proof. intros. unfold readAnswers. by rewrite lookup_insert_ne. Qed.

(** What is found under a key is the stored sequence, or it is
    inherited and nothing is stored. *)
Lemma readAnswers_cases (answers : UserAnswers) q :
  (currentAnswers answers q = answers_array (storedAnswers answers q) ∧
   ∀ m, readAnswers answers q ≠ answers_inherited m)
  ∨ (∃ m, readAnswers answers q = answers_inherited m ∧
          currentAnswers answers q = answers_inherited m ∧
          answers !! q = None).
Proof.
  unfold currentAnswers, readAnswers, storedAnswers.
  destruct (answers !! q) as [l|]; simpl; [by left|].
  destruct (Object_prototype q) as [m|]; [|by left].
  right. by exists m.
Qed.

(** The handler writes, or it throws and nothing changes; it throws
    only for a checkbox whose identifier finds an inherited member. *)
Lemma newAnswers_cases (answers : UserAnswers) q o isMultiple :
  (∃ l, newAnswers (currentAnswers answers q) o isMultiple = Some l ∧
        l = if isMultiple then toggle (storedAnswers answers q) o else [o])
  ∨ (newAnswers (currentAnswers answers q) o isMultiple = None ∧
     isMultiple = true ∧ ∃ m, readAnswers answers q = answers_inherited m).
Proof.
  unfold newAnswers.
  destruct (readAnswers_cases answers q) as [[-> _]|(m & Hread & -> & _)].
  - left. destruct isMultiple; eauto.
  - destruct isMultiple; [|by left; eauto]. right. eauto.
Qed.

Lemma filter_absent (o : string) (l : list string) : o ∉ l → filter (λ a, a ≠ o) l = l.
Proof.
  induction l as [|x l IH]; [done|].
  rewrite not_elem_of_cons. intros [Hne Hl].
  rewrite filter_cons_True by done. by rewrite IH.
Qed.

Lemma toggle_off_on (o : string) (l : list string) :
  o ∈ l → toggle (toggle l o) o = filter (λ a, a ≠ o) l ++ [o].
Proof.
  intros Hin. unfold toggle. rewrite (bool_decide_eq_true_2 _ Hin).
  rewrite bool_decide_eq_false_2; [done|].
  rewrite list_elem_of_filter. by intros [? _].
Qed.

Lemma toggle_on_off (o : string) (l : list string) :
  o ∉ l → toggle (toggle l o) o = l.
Proof.
  intros Hout. unfold toggle. rewrite (bool_decide_eq_false_2 _ Hout).
  rewrite bool_decide_eq_true_2 by set_solver.
  rewrite filter_app, (filter_absent _ _ Hout), filter_cons_False by (by intros []).
  by rewrite filter_nil, app_nil_r.
Qed.

Lemma toggle_twice_members (o : string) (l : list string) x :
  x ∈ toggle (toggle l o) o ↔ x ∈ l.
Proof.
  destruct (decide (o ∈ l)) as [Hin|Hout].
  - rewrite toggle_off_on, elem_of_app, list_elem_of_filter, list_elem_of_singleton by done.
    destruct (decide (x = o)) as [->|Hne]; [tauto|].
    split; [by intros [[]|]|auto].
  - by rewrite toggle_on_off.
Qed.

(** C5, as the code has it.  Two successive calls
    [handleAnswerChange(q, o, true)] leave [userAnswers[q]] with the
    same members as before (an absent entry counting as the empty
    sequence); when [o] was not selected before, the sequence itself is
    the one before the two calls.  When nothing is stored for [q] and
    [q] names a member that plain objects inherit, both calls throw and
    the session is left as it was. *)
Theorem toggle_twice app s q o now1 now2 :
  activeSession app = Some (Full s) →
  ∃ s2,
    activeSession (handleAnswerChange q o true now2 (handleAnswerChange q o true now1 app))
    = Some (Full s2) ∧
    (∀ x, x ∈ storedAnswers (userAnswers s2) q ↔ x ∈ storedAnswers (userAnswers s) q) ∧
    match readAnswers (userAnswers s) q with
    | answers_inherited _ => s2 = s
    | _ =>
        o ∉ storedAnswers (userAnswers s) q →
        userAnswers s2 !! q = Some (storedAnswers (userAnswers s) q)
    end.
Proof.
  intros Hactive.
  destruct (newAnswers_cases (userAnswers s) q o true)
    as [(l & Hnew & ->)|(Hnew & _ & m & Hread)].
  - pose proof (handleAnswerChange_full _ _ q o true now1 _ Hactive Hnew) as H1.
    assert (newAnswers (currentAnswers
              (userAnswers (applyUpdates
                 (answer_updates (userAnswers s) q (toggle (storedAnswers (userAnswers s) q) o))
                 now1 s)) q) o true
            = Some (toggle (toggle (storedAnswers (userAnswers s) q) o) o)) as Hnew2.
    { rewrite userAnswers_answered. unfold currentAnswers.
      by rewrite readAnswers_insert. }
    pose proof (handleAnswerChange_full _ _ q o true now2 _ H1 Hnew2) as H2.
    eexists. split; [exact H2|].
    rewrite !userAnswers_answered, !storedAnswers_insert, lookup_insert_eq.
    split; [intros x; apply toggle_twice_members|].
    destruct (readAnswers_cases (userAnswers s) q) as [[_ Hown]|(m & Hread & Hcur & _)].
    + destruct (readAnswers (userAnswers s) q) as [l|m|] eqn:Hread.
      * intros Hout. by rewrite toggle_on_off.
      * by destruct (Hown m).
      * intros Hout. by rewrite toggle_on_off.
    + by rewrite Hcur in Hnew.
  - rewrite !(handleAnswerChange_throws _ _ q o true _ Hactive Hnew).
    exists s. rewrite Hread. done.
Qed.

Lemma toggle_twice_witness :
  let app := sample_taking in
  let s := session_of app in
  activeSession app = Some (Full s) ∧
  ∃ s2,
    activeSession (handleAnswerChange "q1" "2" true 132
                     (handleAnswerChange "q1" "2" true 131 app))
    = Some (Full s2) ∧
    (∀ x, x ∈ storedAnswers (userAnswers s2) "q1" ↔ x ∈ storedAnswers (userAnswers s) "q1") ∧
    match readAnswers (userAnswers s) "q1" with
    | answers_inherited _ => s2 = s
    | _ =>
        "2" ∉ storedAnswers (userAnswers s) "q1" →
        userAnswers s2 !! "q1" = Some (storedAnswers (userAnswers s) "q1")
    end.
Proof.
  split; [vm_compute; reflexivity|].
  apply (toggle_twice sample_taking). vm_compute; reflexivity.
Defined.

(** C5 as stated fails when the option is selected and is not the last
    one: ["2"; "3"] comes back as ["3"; "2"]. *)
Lemma toggle_twice_reorders :
  let app := sample_two_answers in
  let app2 := handleAnswerChange "q1" "2" true 133
                (handleAnswerChange "q1" "2" true 132 app) in
  activeSession app = Some (Full (session_of app)) ∧
  activeSession app2 = Some (Full (session_of app2)) ∧
  userAnswers (session_of app) !! "q1" = Some ["2"; "3"] ∧
  userAnswers (session_of app2) !! "q1" = Some ["3"; "2"] ∧
  userAnswers (session_of app2) !! "q1" ≠ userAnswers (session_of app) !! "q1".
Proof.
  repeat split; try (vm_compute; reflexivity).
  vm_compute. discriminate.
Qed.

Lemma toggle_NoDup (l : list string) o : NoDup l → NoDup (toggle l o).
Proof.
  intros Hl. unfold toggle. case_bool_decide as Hin.
  - by apply NoDup_filter.
  - apply NoDup_app. split; [done|]. split; [|apply NoDup_singleton].
    intros x Hx ->%list_elem_of_singleton. done.
Qed.

(** C10.  [handleAnswerChange] keeps every answer sequence free of
    duplicates: for each question identifier [q], if [userAnswers[q]] has
    no duplicate before the call it has none after it. *)
Theorem handleAnswerChange_NoDup app s questionId optionText isMultiple now q :
  activeSession app = Some (Full s) →
  NoDup (storedAnswers (userAnswers s) q) →
  ∃ s',
    activeSession (handleAnswerChange questionId optionText isMultiple now app)
    = Some (Full s') ∧
    NoDup (storedAnswers (userAnswers s') q).
Proof.
  intros Hactive Hnodup.
  destruct (newAnswers_cases (userAnswers s) questionId optionText isMultiple)
    as [(l & Hnew & ->)|(Hnew & _)].
  - eexists. split; [by eapply handleAnswerChange_full|].
    rewrite userAnswers_answered.
    destruct (decide (questionId = q)) as [->|Hne];
      [|by rewrite storedAnswers_insert_ne].
    rewrite storedAnswers_insert.
    destruct isMultiple; [by apply toggle_NoDup|apply NoDup_singleton].
  - rewrite (handleAnswerChange_throws _ _ _ _ _ _ Hactive Hnew). by exists s.
Qed.

Lemma handleAnswerChange_NoDup_witness :
  let app := sample_answered in
  let s := session_of app in
  activeSession app = Some (Full s) ∧
  NoDup (storedAnswers (userAnswers s) "q1") ∧
  ∃ s',
    activeSession (handleAnswerChange "q1" "3" true 131 app) = Some (Full s') ∧
    NoDup (storedAnswers (userAnswers s') "q1").
Proof.
  split; [vm_compute; reflexivity|].
  split; [compute_done|].
  apply (handleAnswerChange_NoDup sample_answered (session_of sample_answered)).
  - vm_compute; reflexivity.
  - compute_done.
Defined.

(** ** Starting over after a review *)

(** C6, as the code has it.  In [REVIEWING_QUIZ] the control that starts
    a new quiz on the same document ("Améliorer mes points faibles")
    takes the session to [CONFIGURING_QUIZ] and clears [questions],
    [userAnswers], [correction] and [error]; [weakTopics] is kept, as are
    [id], [fileName] and [content]. *)
Theorem improve_weak_topics app s now :
  activeSession app = Some (Full s) →
  state s = REVIEWING_QUIZ →
  ∃ s',
    activeSession (onImproveWeakTopics now app) = Some (Full s') ∧
    state s' = CONFIGURING_QUIZ ∧
    questions s' = [] ∧ userAnswers s' = ∅ ∧ correction s' = None ∧
    error s' = error_null ∧
    weakTopics s' = weakTopics s ∧
    session_id s' = session_id s ∧ fileName s' = fileName s ∧ content s' = content s.
Proof.
  intros Hactive _. eexists. split; [by apply active_update|].
  by destruct s.
Qed.

Lemma improve_weak_topics_witness :
  let app := sample_reviewing in
  let s := session_of app in
  activeSession app = Some (Full s) ∧
  state s = REVIEWING_QUIZ ∧
  ∃ s',
    activeSession (onImproveWeakTopics 160 app) = Some (Full s') ∧
    state s' = CONFIGURING_QUIZ ∧
    questions s' = [] ∧ userAnswers s' = ∅ ∧ correction s' = None ∧
    error s' = error_null ∧
    weakTopics s' = weakTopics s ∧
    session_id s' = session_id s ∧ fileName s' = fileName s ∧ content s' = content s.
Proof.
  split; [vm_compute; reflexivity|]. split; [vm_compute; reflexivity|].
  apply (improve_weak_topics sample_reviewing); vm_compute; reflexivity.
Defined.

(** C6 as stated fails: after the control is used the weak topics of the
    graded quiz are still set. *)
Lemma improve_keeps_weakTopics :
  let app := sample_reviewing in
  let app' := onImproveWeakTopics 160 app in
  activeSession app = Some (Full (session_of app)) ∧
  state (session_of app) = REVIEWING_QUIZ ∧
  activeSession app' = Some (Full (session_of app')) ∧
  state (session_of app') = CONFIGURING_QUIZ ∧
  weakTopics (session_of app') = Some "Nombres premiers" ∧
  weakTopics (session_of app') ≠ None.
Proof. repeat split; try (vm_compute; reflexivity). vm_compute. discriminate. Qed.

(** [resetSession(false)], which no control calls, does unset
    [weakTopics]. *)
Lemma resetSession_false app s now confirmed :
  activeSession app = Some (Full s) →
  ∃ s',
    activeSession (resetSession false confirmed now app) = Some (Full s') ∧
    state s' = CONFIGURING_QUIZ ∧
    questions s' = [] ∧ userAnswers s' = ∅ ∧ correction s' = None ∧
    error s' = error_null ∧ weakTopics s' = None ∧
    session_id s' = session_id s ∧ fileName s' = fileName s ∧ content s' = content s.
Proof.
  intros Hactive. pose proof (active_update _ _ Hactive reset_updates now) as Hupd.
  revert Hactive Hupd. unfold resetSession, activeSession.
  destruct (activeSessionId app) as [i|]; [|done]. intros _ Hupd.
  eexists. split; [exact Hupd|]. by destruct s.
Qed.

(** The other control of the review, "Nouveau Quiz", is
    [resetSession(true)]: once confirmed the session is gone. *)
Lemma resetSession_true app i now :
  activeSessionId app = Some i →
  sessions (resetSession true true now app) !! i = None ∧
  activeSessionId (resetSession true true now app) = None.
Proof.
  intros Hi. unfold resetSession, handleDeleteSession. rewrite Hi. simpl.
  rewrite bool_decide_eq_true_2 by done. simpl. by rewrite lookup_delete_eq.
Qed.

(** ** The question count *)

Lemma onNumQuestionsChange_full app s value now :
  activeSession app = Some (Full s) →
  ∃ s',
    activeSession (onNumQuestionsChange value now app) = Some (Full s') ∧
    numQuestions s' = Math_max (Num 1) (parseInt10 value).
Proof.
  intros Hactive. eexists. split; [by apply active_update|]. by destruct s.
Qed.

(** When the field holds text that starts with a number, the stored count
    is that number, raised to 1 if it is smaller. *)
Lemma numQuestions_clamped app s value z now :
  activeSession app = Some (Full s) →
  parseInt10 value = Num z →
  ∃ s',
    activeSession (onNumQuestionsChange value now app) = Some (Full s') ∧
    numQuestions s' = Num (Z.max 1 z) ∧ 1 ≤ Z.max 1 z.
Proof.
  intros Hactive Hparse.
  destruct (onNumQuestionsChange_full _ _ value now Hactive) as (s' & Hs' & Hn).
  exists s'. rewrite Hn, Hparse. simpl. repeat split; [done|lia].
Qed.

(** The handler does not enforce the attribute [max="20"]. *)
Example numQuestions_above_20 :
  numQuestions (session_of (onNumQuestionsChange "25" 105 sample_configuring)) = Num 25.
Proof. vm_compute. reflexivity. Qed.

(** C4 fails on the empty field: [parseInt("", 10)] is [NaN], [Math.max]
    propagates it, and [NaN] is stored as the session's [numQuestions]. *)
Theorem numQuestions_cleared app s now :
  activeSession app = Some (Full s) →
  ∃ s',
    activeSession (onNumQuestionsChange "" now app) = Some (Full s') ∧
    numQuestions s' = NaN.
Proof. intros Hactive. by apply (onNumQuestionsChange_full app s). Qed.

Lemma numQuestions_cleared_witness :
  let app := sample_configuring in
  activeSession app = Some (Full (session_of app)) ∧
  ∃ s',
    activeSession (onNumQuestionsChange "" 105 app) = Some (Full s') ∧
    numQuestions s' = NaN.
Proof.
  split; [vm_compute; reflexivity|].
  apply (numQuestions_cleared sample_configuring (session_of sample_configuring)).
  vm_compute; reflexivity.
Defined.

(** ** The life of a session *)

(** [handleFileChange] stores the new session and shows it. *)
Lemma handleFileChange_creates fileName text now1 now2 app :
  shown (handleFileChange (Some {| name := fileName; file_text := Some text |})
           now1 now2 app)
  = Some (newSession ("session-" +:+ pretty now1) fileName text now2).
Proof.
  unfold shown, activeSession, handleFileChange. simpl. by rewrite lookup_insert_eq.
Qed.

Lemma act_inv a now s s' :
  act a now s = Some s' →
  ∃ updates, action_updates a s = Some updates ∧ s' = applyUpdates updates now s.
Proof.
  unfold act. destruct (action_updates a s) as [updates|]; [|done].
  intros [= <-]. by exists updates.
Qed.

(** Each action is what the corresponding handler of [App] does to the
    active session. *)
Lemma perform_act a now app s s' :
  activeSession app = Some (Full s) →
  act a now s = Some s' →
  activeSession (perform a now app) = Some (Full s').
Proof.
  intros Hactive (updates & Hupd & ->)%act_inv.
  pose proof (active_update _ _ Hactive updates now) as Hgoal.
  unfold action_updates in Hupd.
  destruct a; destruct (state s) eqn:Hstate; simplify_eq/=; try done.
  - by case_bool_decide; simplify_eq; unfold handleGenerateQuiz_begin; rewrite Hactive.
  - rewrite Hactive.
    destruct (questions s !! qIndex) as [q|]; [|done]. simpl in Hupd.
    destruct (options q !! oIndex) as [o|]; [|done]. simpl in Hupd.
    destruct (newAnswers _ _ _) as [l|] eqn:Hnew; [|done]. simplify_eq/=.
    by rewrite (handleAnswerChange_full _ _ _ _ _ _ _ Hactive Hnew).
  - unfold handleSubmitQuiz_begin.
    rewrite (isQuizAnswered_full _ _ Hactive), Hactive.
    by destruct (quizAnswered _ _); simplify_eq.
  - destruct (correction s) as [c|]; [|done]. by case_bool_decide; simplify_eq.
  - revert Hactive Hgoal. unfold resetSession, activeSession.
    by destruct (activeSessionId app).
  - revert Hactive Hgoal. unfold resetSession, activeSession.
    by destruct (activeSessionId app).
  - revert Hactive Hgoal. unfold resetSession, activeSession.
    by destruct (activeSessionId app).
  - revert Hactive Hgoal. unfold resetSession, activeSession.
    by destruct (activeSessionId app).
Qed.

Lemma run_reaches actions : ∀ history s s',
  reaches history s → run actions s = Some s' →
  reaches (rev (actions.*1) ++ history) s'.
Proof.
  induction actions as [|[a now] actions IH]; intros history s s' Hs Hrun; simpl in *.
  - by simplify_eq.
  - destruct (act a now s) as [s1|] eqn:Hact; [|done]. simpl in Hrun.
    rewrite <- app_assoc. simpl. eapply IH; [|done].
    by eapply reaches_act.
Qed.

(** Case analysis of one action: the state it needs and the entries it
    writes. *)
Ltac act_cases Hact :=
  apply act_inv in Hact as (?updates & Hact & ->);
  unfold action_updates in Hact;
  repeat match type of Hact with
         | context [match ?x with _ => _ end] => destruct x eqn:?
         | context [if ?b then _ else _] => destruct b eqn:?
         | context [mbind _ ?x] => destruct x eqn:?; simpl in Hact
         end;
  simplify_eq;
  unfold generate_settled_updates, submit_settled_updates in *;
  repeat case_match; simpl in *; simplify_eq.

Lemma action_updates_issued a s updates :
  action_updates a s = Some updates → issued updates.
Proof.
  unfold action_updates. intros Hupd.
  repeat match type of Hupd with
         | context [match ?x with _ => _ end] => destruct x eqn:?
         | context [if ?b then _ else _] => destruct b eqn:?
         | context [mbind _ ?x] => destruct x eqn:?; simpl in Hupd
         end;
  simplify_eq; constructor.
Qed.

(** Whatever the state in which it arrives, an update leaves no error
    message in a session that it leaves or puts in one of the two states
    with a [Loader]: the literals that set an error message set the state
    [ERROR] with it. *)
Lemma loader_error_any_order updates now s :
  issued updates →
  (state s = GENERATING_QUIZ ∨ state s = SUBMITTING_QUIZ → error s = error_null) →
  state (applyUpdates updates now s) = GENERATING_QUIZ
  ∨ state (applyUpdates updates now s) = SUBMITTING_QUIZ →
  error (applyUpdates updates now s) = error_null.
Proof.
  intros Hissued Hs. destruct s.
  destruct Hissued;
    unfold generate_settled_updates, submit_settled_updates in *;
    repeat case_match; simpl in *; auto; by intros [|].
Qed.

Lemma handleGenerateQuiz_begin_full app s now :
  activeSession app = Some (Full s) →
  activeSession (handleGenerateQuiz_begin now app)
  = Some (Full (applyUpdates generating_updates now s)).
Proof.
  intros Hactive. unfold handleGenerateQuiz_begin. rewrite Hactive.
  by apply active_update.
Qed.

Lemma handleSubmitQuiz_begin_full app s now :
  activeSession app = Some (Full s) →
  isQuizAnswered app = Some true →
  activeSession (handleSubmitQuiz_begin now app)
  = Some (Full (applyUpdates submitting_updates now s)).
Proof.
  intros Hactive Hguard. unfold handleSubmitQuiz_begin. rewrite Hguard, Hactive.
  by apply active_update.
Qed.

(** C9.  [handleGenerateQuiz] sets [error] to [null] together with the
    state [GENERATING_QUIZ], and [handleSubmitQuiz] does so together with
    [SUBMITTING_QUIZ]; hence every session reached from its creation that
    is in one of these two states has [error] equal to [null]. *)
Theorem loader_states_have_no_error :
  (∀ app s now,
     activeSession app = Some (Full s) →
     ∃ s', activeSession (handleGenerateQuiz_begin now app) = Some (Full s') ∧
           state s' = GENERATING_QUIZ ∧ error s' = error_null)
  ∧ (∀ app s now,
       activeSession app = Some (Full s) →
       isQuizAnswered app = Some true →
       ∃ s', activeSession (handleSubmitQuiz_begin now app) = Some (Full s') ∧
             state s' = SUBMITTING_QUIZ ∧ error s' = error_null)
  ∧ (∀ history s,
       reaches history s →
       state s = GENERATING_QUIZ ∨ state s = SUBMITTING_QUIZ →
       error s = error_null).
Proof.
  split; [|split].
  - intros app s now Hactive. eexists.
    split; [by apply handleGenerateQuiz_begin_full|]. by destruct s.
  - intros app s now Hactive Hguard. eexists.
    split; [by apply handleSubmitQuiz_begin_full|]. by destruct s.
  - intros history s Hreach.
    induction Hreach as [|history s a now s' _ IH Hact]; [by intros [|]|].
    apply act_inv in Hact as (updates & Hissued%action_updates_issued & ->).
    by apply loader_error_any_order.
Qed.

Lemma sample_acknowledged_reached :
  reaches [ClickRecommencer; SubmitSettles None; ClickSubmit; ChangeAnswer 0 0;
           GenerateSettles (Some [sample_question]) 120; ClickGenerate]
    (session_of sample_acknowledged).
Proof.
  apply (run_reaches sample_failed_grading [] sample_created).
  - apply reaches_created.
  - vm_compute. reflexivity.
Qed.

Lemma sample_submitting_reached :
  reaches [ClickSubmit; ChangeAnswer 0 0;
           GenerateSettles (Some [sample_question]) 120; ClickGenerate]
    (session_of sample_submitting).
Proof.
  apply (run_reaches (take 4 sample_failed_grading) [] sample_created).
  - apply reaches_created.
  - vm_compute. reflexivity.
Qed.

Lemma loader_states_have_no_error_witness :
  (activeSession sample_configuring = Some (Full (session_of sample_configuring)) ∧
   ∃ s', activeSession (handleGenerateQuiz_begin 110 sample_configuring) = Some (Full s') ∧
         state s' = GENERATING_QUIZ ∧ error s' = error_null)
  ∧ (activeSession sample_answered = Some (Full (session_of sample_answered)) ∧
     isQuizAnswered sample_answered = Some true ∧
     ∃ s', activeSession (handleSubmitQuiz_begin 140 sample_answered) = Some (Full s') ∧
           state s' = SUBMITTING_QUIZ ∧ error s' = error_null)
  ∧ (state (session_of sample_submitting) = SUBMITTING_QUIZ ∧
     error (session_of sample_submitting) = error_null).
Proof.
  destruct loader_states_have_no_error as (Hgenerate & Hsubmit & Hreached).
  split; [|split].
  - split; [vm_compute; reflexivity|].
    apply (Hgenerate sample_configuring (session_of sample_configuring)).
    vm_compute; reflexivity.
  - split; [vm_compute; reflexivity|]. split; [vm_compute; reflexivity|].
    apply (Hsubmit sample_answered (session_of sample_answered));
      vm_compute; reflexivity.
  - split; [vm_compute; reflexivity|].
    apply (Hreached _ _ sample_submitting_reached).
    right. vm_compute; reflexivity.
Defined.

Lemma later_in_history (P : Action → bool) a (history : list Action) :
  (∃ b, b ∈ history ∧ P b = true) → ∃ b, b ∈ a :: history ∧ P b = true.
Proof. intros (b & Hb & HP). exists b. split; [by right|done]. Qed.

Lemma now_in_history (P : Action → bool) a (history : list Action) :
  P a = true → ∃ b, b ∈ a :: history ∧ P b = true.
Proof. intros HP. exists a. split; [by left|done]. Qed.

Lemma session_inv_created fileName text (now1 now2 : Z) :
  session_inv [] (newSession ("session-" +:+ pretty now1) fileName text now2).
Proof. split; simpl; [done|done|by intros [|]|by intros _ [|]]. Qed.

Lemma session_inv_act history s a now s' :
  session_inv history s → act a now s = Some s' → session_inv (a :: history) s'.
Proof.
  intros [Hcorr Hgraded Hgen Hstale] Hact. destruct s.
  act_cases Hact.
  all: unfold correctAndReviewQuiz in *; repeat case_match; simplify_eq.
  all: split; simpl in *; intros.
  all: try done.
  all: try (destruct_or!; simplify_eq; done).
  all: try (apply Hcorr; done).
  all: try (apply now_in_history; simpl;
            repeat match goal with
                   | H : generateQuiz _ _ = _ |- _ => rewrite H
                   end; done).
  all: try (apply later_in_history;
            first [apply Hgraded | apply Hgen | apply Hstale]; auto; fail).
  - apply now_in_history. simpl. rewrite H. by destruct l.
  - apply later_in_history, Hgen. left. by intros ->.
Qed.

Lemma reaches_inv history s : reaches history s → session_inv history s.
Proof.
  induction 1; eauto using session_inv_created, session_inv_act.
Qed.

(** C3, as the code has it.  For every session reached from its creation
    by the controls of the views and the settling of the collaborator
    calls: in state [CONFIGURING_QUIZ] the correction is [null], and the
    questions and answers are empty unless a grading has failed earlier
    in the session's history (acknowledging the error leads back to
    [CONFIGURING_QUIZ] with the questions and answers of the failed quiz);
    questions and answers are non-empty only after a generation has
    succeeded, and the correction is non-null only in [REVIEWING_QUIZ],
    after a submission has succeeded. *)
Theorem configuring_invariant history s :
  reaches history s →
  (state s = CONFIGURING_QUIZ →
     correction s = None ∧
     (questions s ≠ [] ∨ userAnswers s ≠ ∅ →
      ∃ a, a ∈ history ∧ submission_failed a = true))
  ∧ (questions s ≠ [] ∨ userAnswers s ≠ ∅ →
     ∃ a, a ∈ history ∧ generation_succeeded a = true)
  ∧ (correction s ≠ None →
     state s = REVIEWING_QUIZ ∧ ∃ a, a ∈ history ∧ submission_succeeded a = true).
Proof.
  intros [Hcorr Hgraded Hgen Hstale]%reaches_inv. split; [|split].
  - intros Hstate. split.
    + apply Hcorr. by rewrite Hstate.
    + apply Hstale. by left.
  - done.
  - intros Hset. split; [|by apply Hgraded].
    destruct (decide (state s = REVIEWING_QUIZ)) as [|Hne]; [done|].
    destruct Hset. by apply Hcorr.
Qed.

Lemma configuring_invariant_witness :
  let s := session_of sample_acknowledged in
  reaches [ClickRecommencer; SubmitSettles None; ClickSubmit; ChangeAnswer 0 0;
           GenerateSettles (Some [sample_question]) 120; ClickGenerate] s ∧
  state s = CONFIGURING_QUIZ ∧ correction s = None ∧
  ∃ a, a ∈ [ClickRecommencer; SubmitSettles None; ClickSubmit; ChangeAnswer 0 0;
            GenerateSettles (Some [sample_question]) 120; ClickGenerate] ∧
       submission_failed a = true.
Proof.
  destruct (configuring_invariant _ _ sample_acknowledged_reached) as [Hconf _].
  assert (state (session_of sample_acknowledged) = CONFIGURING_QUIZ) as Hstate
    by (vm_compute; reflexivity).
  destruct (Hconf Hstate) as [Hcorr Hstale].
  split; [exact sample_acknowledged_reached|].
  split; [exact Hstate|]. split; [exact Hcorr|].
  apply Hstale. left. vm_compute. discriminate.
Defined.

(** C3 as stated fails: after a grading that failed and was
    acknowledged, the session is in [CONFIGURING_QUIZ] with the questions
    and the answers of the quiz that could not be graded. *)
Lemma configuring_keeps_failed_quiz :
  let s := session_of sample_acknowledged in
  reaches [ClickRecommencer; SubmitSettles None; ClickSubmit; ChangeAnswer 0 0;
           GenerateSettles (Some [sample_question]) 120; ClickGenerate] s ∧
  activeSession sample_acknowledged = Some (Full s) ∧
  state s = CONFIGURING_QUIZ ∧
  questions s = [sample_question] ∧
  userAnswers s = {[ "q1" := ["2"] ]} ∧
  ¬ (questions s = [] ∧ userAnswers s = ∅ ∧ correction s = None).
Proof.
  split; [exact sample_acknowledged_reached|].
  repeat split; try (vm_compute; reflexivity).
  intros [Hquestions _]. vm_compute in Hquestions. discriminate Hquestions.
Qed.

(** ** Load before save *)

Lemma browser_inv_mount stored : browser_inv stored (mount stored).
Proof.
  split; simpl; try done.
  - by intros [|??] ????.
  - by intros ? ?%elem_of_nil.
Qed.

Lemma log_cons_split (io : IO) (l later earlier : list IO) value accepted :
  io :: l = later ++ SetItem value accepted :: earlier →
  (later = [] ∧ io = SetItem value accepted ∧ earlier = l) ∨
  (∃ later', later = io :: later' ∧ l = later' ++ SetItem value accepted :: earlier).
Proof.
  destruct later as [|io' later']; simpl; intros [= -> ->]; [by left|].
  right. by exists later'.
Qed.

Lemma browser_inv_step stored b b' :
  browser_inv stored b → step b b' → browser_inv stored b'.
Proof.
  intros [Hrendered Hloaded Horder Hwritten Huntouched] Hstep.
  destruct Hstep as [accepted b b' Hflush | b b' Hrender | f b];
    destruct b as [cur ren d pending storage l]; simpl in *.
  - unfold flushEffect in Hflush. simpl in Hflush.
    destruct pending as [|[] rest]; simplify_eq/=.
    + (* the load effect *)
      split; simpl; try done.
      * intros _. by left.
      * intros later value accepted' earlier Hlog.
        apply log_cons_split in Hlog as [(_ & [=] & _)|(later' & -> & Hl)].
        by eapply Horder.
      * intros Hnone. apply Huntouched. intros io Hio. apply Hnone. by right.
    + (* the save effect *)
      unfold saveEffect. simpl. destruct (cell_isLoaded ren) eqn:Hren; [|by split; simpl; rewrite ?Hren].
      split; simpl.
      * auto.
      * intros Hcur. right. auto.
      * intros later value accepted' earlier Hlog.
        apply log_cons_split in Hlog as [(-> & _ & ->)|(later' & -> & Hl)].
        -- auto.
        -- by eapply Horder.
      * intros io _ _. auto.
      * intros Hnone. by specialize (Hnone _ (list_elem_of_here _ _)).
  - unfold render in Hrender. simpl in Hrender.
    destruct pending; [|done]. destruct d; simplify_eq/=. by split.
  - by split.
Qed.

Lemma runs_inv stored b : runs stored b → browser_inv stored b.
Proof. induction 1; eauto using browser_inv_mount, browser_inv_step. Qed.

Lemma step_writes b b' value accepted :
  step b b' → log b' = SetItem value accepted :: log b →
  cell_isLoaded (rendered b) = true.
Proof.
  intros Hstep Hlog.
  destruct Hstep as [accepted' b b' Hflush | b b' Hrender | f b];
    destruct b as [cur ren d pending storage l]; simpl in *.
  - unfold flushEffect in Hflush. simpl in Hflush.
    destruct pending as [|[] rest]; simplify_eq/=.
    unfold saveEffect in Hlog. simpl in Hlog.
    destruct (cell_isLoaded ren); [done|]. simpl in Hlog.
    exfalso. by eapply (f_equal length) in Hlog; simpl in Hlog; lia.
  - unfold render in Hrender. simpl in Hrender.
    destruct pending; [|done]. destruct d; simplify_eq/=.
    exfalso. by eapply (f_equal length) in Hlog; simpl in Hlog; lia.
  - exfalso. by eapply (f_equal length) in Hlog; simpl in Hlog; lia.
Qed.

(** C8.  In every execution of the two effects, whatever else updates
    the store and whenever: each [setItem] on the storage key comes after
    the load effect has finished, it is issued from a render in which
    [isLoaded] is true, and as long as [isLoaded] is false nothing has
    been written, so that the storage still holds what it held when the
    application started. *)
Theorem save_waits_for_load stored b :
  runs stored b →
  (∀ later value accepted earlier,
     log b = later ++ SetItem value accepted :: earlier → LoadFinished ∈ earlier)
  ∧ (∀ b' value accepted,
       step b b' → log b' = SetItem value accepted :: log b →
       cell_isLoaded (rendered b) = true ∧ cell_isLoaded (current b) = true ∧
       LoadFinished ∈ log b)
  ∧ (cell_isLoaded (current b) = false →
     (∀ io, io ∈ log b → isSetItem io = false) ∧ localStorage b = stored).
Proof.
  intros [Hrendered Hloaded Horder Hwritten Huntouched]%runs_inv.
  split; [exact Horder|]. split.
  - intros b' value accepted Hstep Hlog.
    pose proof (step_writes _ _ _ _ Hstep Hlog). auto.
  - intros Hflag.
    assert (∀ io, io ∈ log b → isSetItem io = false) as Hnone.
    { intros io Hio. destruct (isSetItem io) eqn:Hset; [|done].
      rewrite (Hwritten io Hio Hset) in Hflag. done. }
    auto.
Qed.

Lemma startup_runs stored : runs stored (startup stored).
Proof.
  unfold startup.
  eapply runs_step.
  { eapply runs_step.
    { eapply runs_step.
      { eapply runs_step; [apply runs_mount|].
        by apply (step_effect true). }
      by apply (step_effect true). }
    by apply step_render. }
  by apply (step_effect true).
Qed.

(** At start-up the first write carries the store that was loaded; when
    nothing could be loaded it carries the empty store. *)
Lemma startup_first_write stored :
  let loaded := match stored with
                | Some (Document j) => parse j
                | _ => VObject []
                end in
  log (startup stored) = [SetItem (stringify loaded) true; LoadFinished] ∧
  localStorage (startup stored) = Some (stringify loaded).
Proof. by destruct stored as [[]|]. Qed.

Lemma save_waits_for_load_witness :
  runs sample_stored sample_started ∧
  log sample_started = [] ++ SetItem (Document (JObject [])) true :: [LoadFinished] ∧
  LoadFinished ∈ [LoadFinished].
Proof.
  split; [apply startup_runs|]. split; [vm_compute; reflexivity|].
  apply (proj1 (save_waits_for_load sample_stored sample_started (startup_runs _))
           [] (Document (JObject [])) true [LoadFinished]).
  vm_compute; reflexivity.
Defined.

(** ** Saving and loading the store *)

(** C7 fails on a store that holds [NaN]: the session whose question
    count was emptied comes back from storage with [numQuestions] equal
    to [null]. *)
Theorem reload_loses_NaN :
  let s := session_of sample_count_cleared in
  let store := Sessions_toJs (sessions sample_count_cleared) in
  sessions sample_count_cleared !! "session-100" = Some (Full s) ∧
  numQuestions s = NaN ∧
  getProp "numQuestions" (getProp "session-100" store) = VNumber NaN ∧
  getProp "numQuestions" (getProp "session-100" (reload store)) = VNull.
Proof. repeat split; vm_compute; reflexivity. Qed.

Lemma JsVal_nested_ind (P : JsVal → Prop) :
  P VUndefined → P VNull → (∀ b, P (VBool b)) → (∀ n, P (VNumber n)) →
  (∀ s, P (VString s)) →
  (∀ items, Forall P items → P (VArray items)) →
  (∀ props, Forall (λ p, P p.2) props → P (VObject props)) →
  ∀ v, P v.
Proof.
  intros Hundefined Hnull Hbool Hnumber Hstring Harray Hobject.
  fix IH 1. intros [| |b|n|s|items|props].
  - exact Hundefined.
  - exact Hnull.
  - apply Hbool.
  - apply Hnumber.
  - apply Hstring.
  - apply Harray. induction items as [|x items IHitems]; constructor.
    + apply IH.
    + exact IHitems.
  - apply Hobject. induction props as [|[k x] props IHprops]; constructor.
    + apply IH.
    + exact IHprops.
Qed.

Lemma defineProperty_fresh k v props :
  k ∉ props.*1 → defineProperty k v props = props ++ [(k, v)].
Proof.
  induction props as [|[k' v'] props IH]; simpl; [done|].
  rewrite not_elem_of_cons. intros [Hne Hfresh].
  rewrite bool_decide_eq_false_2 by done. by rewrite IH.
Qed.

Lemma foldl_defineProperty_NoDup (l acc : list (string * JsVal)) :
  NoDup ((acc ++ l).*1) →
  foldl (λ props p, defineProperty p.1 p.2 props) acc l = acc ++ l.
Proof.
  revert acc. induction l as [|[k v] l IH]; intros acc Hnodup; simpl.
  - by rewrite app_nil_r.
  - rewrite defineProperty_fresh, IH.
    + by rewrite <- app_assoc.
    + by rewrite <- app_assoc.
    + rewrite fmap_app, NoDup_app in Hnodup. destruct Hnodup as (_ & Hdisjoint & _).
      intros Hin. apply (Hdisjoint k Hin). simpl. by left.
Qed.

Lemma foldl_defineProperty_nil (l : list (string * JsVal)) :
  NoDup (l.*1) → foldl (λ props p, defineProperty p.1 p.2 props) [] l = l.
Proof. intros Hnodup. by rewrite foldl_defineProperty_NoDup. Qed.

Lemma reloadProp_keys props : (omap reloadProp props).*1 `sublist_of` props.*1.
Proof.
  induction props as [|[k v] props IH]; simpl; [done|].
  unfold reloadProp at 1. simpl. destruct (serialize v); simpl.
  - by apply sublist_skip.
  - by apply sublist_cons.
Qed.

Lemma reload_object props :
  NoDup (props.*1) → reload (VObject props) = VObject (omap reloadProp props).
Proof.
  intros Hnodup. unfold reload. simpl. f_equal.
  etrans; [|apply (foldl_defineProperty_nil (omap reloadProp props))].
  - f_equal. clear Hnodup. induction props as [|[k v] props IH]; [done|].
    csimpl. unfold reloadProp at 1. simpl.
    destruct (serialize v); csimpl; by rewrite <- IH.
  - simpl. eapply sublist_NoDup; [done|apply reloadProp_keys].
Qed.

Lemma lookupProp_None k props : k ∉ props.*1 → lookupProp k props = None.
Proof.
  induction props as [|[k' v] props IH]; simpl; [done|].
  rewrite not_elem_of_cons. intros [Hne Hfresh].
  rewrite bool_decide_eq_false_2 by done. auto.
Qed.

Local Opaque serialize parse.

Lemma lookupProp_reload k props :
  NoDup (props.*1) →
  lookupProp k (omap reloadProp props)
  = lookupProp k props ≫= λ v, parse <$> serialize v.
Proof.
  induction props as [|[k' v] props IH]; simpl; [done|].
  rewrite NoDup_cons. intros [Hfresh Hnodup].
  unfold reloadProp at 1. simpl. case_bool_decide as Hk; subst; simpl.
  - destruct (serialize v); simpl; [by rewrite bool_decide_eq_true_2|].
    apply lookupProp_None. intros Hin. apply Hfresh.
    eapply elem_of_sublist; [done|apply reloadProp_keys].
  - destruct (serialize v); simpl; [rewrite bool_decide_eq_false_2 by done|]; auto.
Qed.

Local Transparent serialize parse.

Lemma getProp_reload k props :
  NoDup (props.*1) →
  getProp k (reload (VObject props))
  = default VUndefined (lookupProp k props ≫= λ v, parse <$> serialize v).
Proof.
  intros Hnodup. rewrite reload_object by done. simpl.
  by rewrite lookupProp_reload.
Qed.

Lemma items_come_back items :
  Forall comes_back items →
  map parse (map (λ x, default JNull (serialize x)) items) = items.
Proof.
  induction 1 as [|x items (j & Hj & Hx) _ IH]; simpl; [done|].
  by rewrite Hj, IH; simpl; rewrite Hx.
Qed.

Lemma props_come_back props :
  Forall (λ p, comes_back p.2) props → omap reloadProp props = props.
Proof.
  induction 1 as [|[k x] props (j & Hj & Hx) _ IH]; [done|].
  csimpl. unfold reloadProp at 1. simpl in *. by rewrite Hj, Hx, IH.
Qed.

Lemma reload_safe v : jsonSafe v = true → comes_back v.
Proof.
  induction v as [| |b|[|z| |]|s|items IH|props IH] using JsVal_nested_ind;
    simpl; intros Hsafe; try done; try by eexists.
  - eexists. split; [done|]. simpl. f_equal.
    apply items_come_back. rewrite Forall_forall in IH. apply Forall_forall.
    intros x Hx. apply IH; [done|].
    rewrite forallb_forall in Hsafe. by apply Hsafe, list_elem_of_In.
  - apply andb_true_iff in Hsafe as [Hsafe Hnodup%bool_decide_eq_true_1].
    eexists. split; [done|].
    change (reload (VObject props) = VObject props).
    rewrite reload_object by done. f_equal.
    apply props_come_back. rewrite Forall_forall in IH. apply Forall_forall.
    intros p Hp. apply IH; [done|].
    rewrite forallb_forall in Hsafe. by apply Hsafe, list_elem_of_In.
Qed.

Lemma reload_default v : default VUndefined (parse <$> serialize v) = reload v.
Proof. unfold reload. by destruct (serialize v). Qed.

(** *** The values of a session are written and read back as they are *)

Lemma jsonSafe_items {A} (f : A → JsVal) (l : list A) :
  (∀ x, jsonSafe (f x) = true) → forallb jsonSafe (f <$> l) = true.
Proof. intros Hf. induction l; simpl; [done|]. by rewrite Hf. Qed.

Lemma jsonSafe_array {A} (f : A → JsVal) (l : list A) :
  (∀ x, jsonSafe (f x) = true) → jsonSafe (VArray (f <$> l)) = true.
Proof. apply jsonSafe_items. Qed.

Lemma jsonSafe_strings l : jsonSafe (strings_toJs l) = true.
Proof. by apply jsonSafe_array. Qed.

Lemma jsonSafe_Option o : jsonSafe (Option_toJs o) = true.
Proof. done. Qed.

Lemma jsonSafe_Question q : jsonSafe (Question_toJs q) = true.
Proof.
  unfold Question_toJs. simpl.
  rewrite (jsonSafe_items _ _ jsonSafe_Option). by destruct (type q).
Qed.

Lemma jsonSafe_UserAnswers (answers : UserAnswers) :
  jsonSafe (UserAnswers_toJs answers) = true.
Proof.
  unfold UserAnswers_toJs. simpl. apply andb_true_iff. split.
  - apply forallb_forall. intros p (p' & -> & _)%list_elem_of_In%list_elem_of_fmap.
    apply jsonSafe_strings.
  - apply bool_decide_eq_true_2. rewrite <- list_fmap_compose.
    apply NoDup_fst_map_to_list.
Qed.

Lemma jsonSafe_QuizResult r : jsonSafe (QuizResult_toJs r) = true.
Proof.
  unfold QuizResult_toJs, strings_toJs. simpl.
  by rewrite !jsonSafe_items.
Qed.

Lemma jsonSafe_CorrectionResponse c : jsonSafe (CorrectionResponse_toJs c) = true.
Proof.
  unfold CorrectionResponse_toJs. simpl.
  by rewrite (jsonSafe_items _ _ jsonSafe_QuizResult).
Qed.

Lemma entry_comes_back f k v :
  entry_toJs f = (k, v) →
  (∀ n, f = set_numQuestions n → isFinite n = true) →
  v = VUndefined ∨ jsonSafe v = true.
Proof.
  destruct f as [| |qt|n| | |[c|]|[t|]| |st|[| |m]]; intros [= <- <-] Hnum; auto.
  - right. specialize (Hnum n eq_refl). by destruct n.
  - right. by apply (jsonSafe_array _ _ jsonSafe_Question).
  - right. apply jsonSafe_UserAnswers.
  - right. apply jsonSafe_CorrectionResponse.
Qed.

Lemma lookupProp_elem k v props : lookupProp k props = Some v → (k, v) ∈ props.
Proof.
  induction props as [|[k' v'] props IH]; simpl; [done|].
  case_bool_decide; simplify_eq/=.
  - intros [= ->]. by left.
  - intros Hv. right. auto.
Qed.

Lemma lookupProp_Some k v props :
  NoDup (props.*1) → (k, v) ∈ props → lookupProp k props = Some v.
Proof.
  induction props as [|[k' v'] props IH]; simpl.
  - by intros _ ?%elem_of_nil.
  - rewrite NoDup_cons, elem_of_cons. intros [Hfresh Hnodup] [[= -> ->]|Hin].
    + by rewrite bool_decide_eq_true_2.
    + rewrite bool_decide_eq_false_2; [auto|].
      intros ->. apply Hfresh. apply list_elem_of_fmap. by exists (k, v).
Qed.

(** Reading a property of an object that came back from storage: the
    same value as before, provided the value is one that comes back. *)
Lemma getProp_comes_back k props :
  NoDup (props.*1) →
  (∀ v, (k, v) ∈ props → v = VUndefined ∨ jsonSafe v = true) →
  getProp k (reload (VObject props)) = getProp k (VObject props).
Proof.
  intros Hnodup Hvalues. rewrite getProp_reload by done. simpl.
  destruct (lookupProp k props) as [v|] eqn:Hv; [|done]. simpl.
  destruct (Hvalues v (lookupProp_elem _ _ _ Hv)) as [->|Hsafe]; [done|].
  destruct (reload_safe v Hsafe) as (j & Hj & Hparse). by rewrite Hj.
Qed.

Lemma defineProperty_fst k v props :
  (defineProperty k v props).*1
  = if bool_decide (k ∈ props.*1) then props.*1 else props.*1 ++ [k].
Proof.
  induction props as [|[k' v'] props IH]; [done|].
  cbn [defineProperty fst]. rewrite fmap_cons. cbn [fst].
  destruct (decide (k' = k)) as [->|Hne].
  - rewrite !bool_decide_eq_true_2; [done|by left|done].
  - rewrite (bool_decide_eq_false_2 (k' = k)) by done.
    rewrite fmap_cons, IH. cbn [fst].
    destruct (decide (k ∈ props.*1)) as [Hin|Hout].
    + rewrite !bool_decide_eq_true_2; [done|by right|done].
    + rewrite !bool_decide_eq_false_2; [done| |done].
      rewrite elem_of_cons. by intros [->|].
Qed.

Lemma defineProperty_keys k v props :
  NoDup (props.*1) → NoDup ((defineProperty k v props).*1).
Proof.
  intros Hnodup. rewrite defineProperty_fst. case_bool_decide as Hk; [done|].
  apply NoDup_app. split; [done|]. split; [|apply NoDup_singleton].
  by intros k' Hin ->%list_elem_of_singleton.
Qed.

Lemma defineProperty_elem k v props p :
  p ∈ defineProperty k v props → p = (k, v) ∨ p ∈ props.
Proof.
  induction props as [|[k' v'] props IH]; simpl.
  - intros ->%list_elem_of_singleton. by left.
  - case_bool_decide; rewrite !elem_of_cons.
    + intros [->|Hin]; auto.
    + intros [->|Hin]; [auto|]. destruct (IH Hin); auto.
Qed.

Lemma defined_keys (l acc : list (string * JsVal)) :
  NoDup (acc.*1) →
  NoDup ((foldl (λ props p, defineProperty p.1 p.2 props) acc l).*1).
Proof.
  revert acc. induction l as [|[k v] l IH]; intros acc Hacc; simpl; [done|].
  by apply IH, defineProperty_keys.
Qed.

Lemma defined_elem (l acc : list (string * JsVal)) p :
  p ∈ foldl (λ props p, defineProperty p.1 p.2 props) acc l → p ∈ acc ∨ p ∈ l.
Proof.
  revert acc. induction l as [|[k v] l IH]; intros acc; simpl; [by left|].
  intros [[->|Hacc]%defineProperty_elem|Hl]%IH.
  - right. by left.
  - by left.
  - right. by right.
Qed.

(** A stored object, whole or orphan, is an object whose keys are
    distinct and whose values come from its entries. *)
Lemma SessionObj_props o :
  ∃ props entries,
    SessionObj_toJs o = VObject props ∧ NoDup (props.*1) ∧
    (∀ k v, (k, v) ∈ props →
            (k, v) = ("id", VString (match o with Full s => session_id s | _ => "" end))
            ∨ ∃ f, f ∈ entries ∧ entry_toJs f = (k, v)) ∧
    entries = match o with Full s => session_entries s | Orphan entries => entries end.
Proof.
  destruct o as [s|entries]; eexists _, _; (split; [reflexivity|]); (split; [|split; [|done]]).
  - simpl. compute_done.
  - intros k v [->|Hin]%elem_of_cons; [by left|]. right.
    apply list_elem_of_fmap in Hin as (f & -> & Hf). eauto.
  - apply defined_keys. constructor.
  - intros k v [?%elem_of_nil|Hin]%defined_elem; [done|]. right.
    apply list_elem_of_fmap in Hin as (f & -> & Hf). eauto.
Qed.

Lemma getProp_session (store : Sessions) i o :
  store !! i = Some o →
  getProp i (Sessions_toJs store) = SessionObj_toJs o ∧
  getProp i (reload (Sessions_toJs store)) = reload (SessionObj_toJs o).
Proof.
  intros Hi. unfold Sessions_toJs.
  set (props := (λ p : string * SessionObj, (p.1, SessionObj_toJs p.2)) <$> map_to_list store).
  assert (NoDup (props.*1)) as Hnodup.
  { unfold props. rewrite <- list_fmap_compose. apply NoDup_fst_map_to_list. }
  assert (lookupProp i props = Some (SessionObj_toJs o)) as Hlookup.
  { apply lookupProp_Some; [done|]. apply list_elem_of_fmap.
    exists (i, o). split; [done|]. by apply elem_of_map_to_list. }
  split.
  - simpl. by rewrite Hlookup.
  - rewrite getProp_reload, Hlookup by done. simpl. apply reload_default.
Qed.

(** The round trip through storage keeps every field of every stored
    object, the one exception being a [numQuestions] that is not finite
    ([NaN], or [Infinity]). *)
Lemma reload_preserves_fields (store : Sessions) i o k :
  store !! i = Some o →
  (k = "numQuestions" → numbers_ok o) →
  getProp k (getProp i (reload (Sessions_toJs store)))
  = getProp k (getProp i (Sessions_toJs store)).
Proof.
  intros Hi Hnum. destruct (getProp_session store i o Hi) as [-> ->].
  destruct (SessionObj_props o) as (props & entries & -> & Hnodup & Hprops & Hentries).
  apply getProp_comes_back; [done|]. intros v Hv.
  destruct (Hprops k v Hv) as [[= -> ->]|(f & Hf & Hentry)]; [by right|].
  apply (entry_comes_back f k v Hentry). intros n ->.
  injection Hentry as <- <-. specialize (Hnum eq_refl). subst entries.
  destruct o as [s|entries]; simpl in Hnum; [|by apply Hnum].
  unfold session_entries in Hf.
  repeat (apply elem_of_cons in Hf as [Heq|Hf]; [congruence|]).
  by apply elem_of_nil in Hf.
Qed.

(** The sessions come back in the order they were stored in. *)
Lemma reload_keeps_order (store : Sessions) :
  ∃ props props',
    Sessions_toJs store = VObject props ∧
    reload (Sessions_toJs store) = VObject props' ∧
    props'.*1 = props.*1.
Proof.
  eexists _, _. split; [reflexivity|]. split.
  - apply reload_object. rewrite <- list_fmap_compose. apply NoDup_fst_map_to_list.
  - induction (map_to_list store) as [|[i o] l IH]; [done|].
    csimpl. unfold reloadProp at 1. cbn [fst snd].
    destruct (SessionObj_props o) as (props & _ & -> & _). simpl. by f_equal.
Qed.

(** In particular [lastAccessed], by which the session list is ordered,
    always comes back. *)
Lemma reload_preserves_lastAccessed (store : Sessions) i s :
  store !! i = Some (Full s) →
  getProp "lastAccessed" (getProp i (reload (Sessions_toJs store)))
  = VNumber (Num (lastAccessed s)).
Proof.
  intros Hi. rewrite (reload_preserves_fields store i (Full s)) by done.
  by destruct (getProp_session store i _ Hi) as [-> _].
Qed.

(** * Further properties *)

(** ** The writers of the store *)

Lemma assign_session_id f s : session_id (assign f s) = session_id s.
Proof. by destruct s, f. Qed.

Lemma applyUpdates_session_id updates now s :
  session_id (applyUpdates updates now s) = session_id s.
Proof.
  unfold applyUpdates. rewrite assign_session_id.
  revert s. induction updates as [|f updates IH]; intros s; simpl; [done|].
  by rewrite IH, assign_session_id.
Qed.

Lemma applyUpdates_lastAccessed updates now s :
  lastAccessed (applyUpdates updates now s) = now.
Proof. unfold applyUpdates. by destruct (foldl _ s updates). Qed.

(** X1.  [updateActiveSession], whatever the literal it is given: the object
    under the captured identifier keeps its [id] and gets [lastAccessed]
    equal to the reading of the clock; every other key of the store is
    left as it was, and no key is added. *)
Theorem updateActiveSession_frame i updates now (prev : Sessions) s :
  prev !! i = Some (Full s) →
  (∃ s', updateActiveSession (Some i) updates now prev !! i = Some (Full s') ∧
         session_id s' = session_id s ∧ lastAccessed s' = now)
  ∧ (∀ j, j ≠ i → updateActiveSession (Some i) updates now prev !! j = prev !! j)
  ∧ dom (updateActiveSession (Some i) updates now prev) = dom prev.
Proof.
  intros Hi. split; [|split].
  - eexists. split.
    + rewrite updateActiveSession_lookup, Hi. reflexivity.
    + by rewrite applyUpdates_session_id, applyUpdates_lastAccessed.
  - intros j Hj. unfold updateActiveSession. by rewrite lookup_insert_ne.
  - unfold updateActiveSession. rewrite dom_insert_L.
    apply subseteq_union_1_L, singleton_subseteq_l, elem_of_dom. eauto.
Qed.

Lemma updateActiveSession_frame_witness :
  let prev := sessions sample_two_documents in
  prev !! "session-100" = Some (Full (session_of sample_answered)) ∧
  updateActiveSession (Some "session-100") reset_updates 300 prev !! "session-200"
  = prev !! "session-200".
Proof.
  split; [vm_compute; reflexivity|].
  refine (proj1 (proj2 (updateActiveSession_frame "session-100" reset_updates 300
                          (sessions sample_two_documents)
                          (session_of sample_answered) _)) "session-200" _).
  - vm_compute; reflexivity.
  - discriminate.
Defined.

Lemma store_wf_insert (store : Sessions) i o :
  store_wf store →
  (∀ s, o = Full s → session_id s = i) →
  store_wf (<[i := o]> store).
Proof.
  intros Hwf Ho j s. destruct (decide (i = j)) as [<-|Hne].
  - rewrite lookup_insert_eq. intros [= ->]. by apply Ho.
  - rewrite lookup_insert_ne by done. apply Hwf.
Qed.

(** X2.  Every whole session is stored under its own [id]: this holds of the
    empty store and is kept by the three functions that write the store,
    [handleFileChange], [handleDeleteSession] and [updateActiveSession]
    (through which every other handler writes). *)
Theorem store_wf_kept :
  store_wf ∅
  ∧ (∀ app file now1 now2,
       store_wf (sessions app) →
       store_wf (sessions (handleFileChange file now1 now2 app)))
  ∧ (∀ app sessionId confirmed,
       store_wf (sessions app) →
       store_wf (sessions (handleDeleteSession sessionId confirmed app)))
  ∧ (∀ store capturedId updates now,
       store_wf store → store_wf (updateActiveSession capturedId updates now store)).
Proof.
  split; [|split; [|split]].
  - intros i s. by rewrite lookup_empty.
  - intros app [[fileName [text|]]|] now1 now2 Hwf; simpl; try done.
    apply store_wf_insert; [done|]. by intros s [= <-].
  - intros app sessionId [] Hwf; simpl; [|done].
    assert (store_wf (delete sessionId (sessions app))) as Hdel.
    { intros i s Hi. apply Hwf. by apply lookup_delete_Some in Hi as [_ Hi]. }
    by case_bool_decide.
  - intros store [i|] updates now Hwf; simpl; [|done].
    apply store_wf_insert; [done|]. intros s.
    destruct (store !! i) as [[s0|entries]|] eqn:Hi; simpl; try done.
    intros [= <-]. rewrite applyUpdates_session_id. by apply Hwf.
Qed.

Lemma store_wf_kept_witness :
  store_wf (sessions sample_empty) ∧
  store_wf (sessions sample_configuring).
Proof.
  destruct store_wf_kept as (Hempty & Hfile & _ & _).
  split; [exact Hempty|].
  apply (Hfile sample_empty). exact Hempty.
Defined.

(** ** handleFileChange and handleDeleteSession *)

Lemma session_key_inj (now1 now2 : Z) :
  "session-" +:+ pretty now1 = "session-" +:+ pretty now2 → now1 = now2.
Proof. intros Heq. simpl in Heq. injection Heq as Heq. by apply (inj pretty). Qed.

(** X3.  [handleFileChange]: without a file, or with a file that cannot be
    read, nothing changes; with a readable file the new session is stored
    under [session-<now>] with the defaults (mixed quiz, 5 questions, no
    question, no answer, no correction, [CONFIGURING_QUIZ]) and becomes
    the active one, and the sessions under other keys are kept.  Two
    uploads at different readings of the clock never share a key. *)
Theorem handleFileChange_spec app now1 now2 :
  handleFileChange None now1 now2 app = app
  ∧ (∀ fileName,
       handleFileChange (Some {| name := fileName; file_text := None |}) now1 now2 app
       = app)
  ∧ (∀ fileName text,
       let app' := handleFileChange (Some {| name := fileName; file_text := Some text |})
                     now1 now2 app in
       let newId := "session-" +:+ pretty now1 in
       activeSessionId app' = Some newId ∧
       sessions app' !! newId
       = Some (Full {| session_id := newId; fileName := fileName; content := text;
                       quizType := MIXED; numQuestions := Num 5; questions := [];
                       userAnswers := ∅; correction := None; weakTopics := None;
                       lastAccessed := now2; state := CONFIGURING_QUIZ;
                       error := error_undefined |}) ∧
       (∀ j, j ≠ newId → sessions app' !! j = sessions app !! j) ∧
       (∀ now1', now1' ≠ now1 →
          sessions app' !! ("session-" +:+ pretty now1')
          = sessions app !! ("session-" +:+ pretty now1'))).
Proof.
  split; [done|]. split; [done|].
  intros fileName text app' newId. unfold app', newId. simpl.
  split; [done|]. split; [by rewrite lookup_insert_eq|]. split.
  - intros j Hj. by rewrite lookup_insert_ne.
  - intros now1' Hne. rewrite lookup_insert_ne; [done|].
    intros Heq. by apply session_key_inj in Heq.
Qed.

(** X4.  [handleDeleteSession]: when the user does not confirm, nothing
    changes; when the user confirms, the key is removed and every other
    key is kept.  Deleting the active session leaves the application
    without an active session; deleting another one keeps the active
    session and what it holds.  Deleting a second time changes nothing. *)
Theorem handleDeleteSession_spec app sessionId :
  handleDeleteSession sessionId false app = app
  ∧ (let app' := handleDeleteSession sessionId true app in
     sessions app' !! sessionId = None ∧
     (∀ j, j ≠ sessionId → sessions app' !! j = sessions app !! j) ∧
     (activeSessionId app = Some sessionId →
      activeSessionId app' = None ∧ activeSession app' = None) ∧
     (activeSessionId app ≠ Some sessionId →
      activeSessionId app' = activeSessionId app ∧
      activeSession app' = activeSession app) ∧
     handleDeleteSession sessionId true app' = app').
Proof.
  split; [done|]. unfold handleDeleteSession, activeSession.
  case_bool_decide as Hactive; simpl.
  - split; [by rewrite lookup_delete_eq|].
    split; [intros j Hj; by rewrite lookup_delete_ne|].
    split; [done|]. split; [done|].
    unfold setActiveSessionId, setSessions. simpl. by rewrite delete_delete_eq.
  - split; [by rewrite lookup_delete_eq|].
    split; [intros j Hj; by rewrite lookup_delete_ne|].
    split; [done|]. split.
    { intros _. split; [done|].
      destruct (activeSessionId app) as [i|]; [|done].
      rewrite lookup_delete_ne; [done|congruence]. }
    rewrite bool_decide_eq_false_2 by done.
    unfold setSessions. simpl. by rewrite delete_delete_eq.
Qed.

(** X5.  Uploading a file and deleting the new session at once gives back the
    store there was, with no active session, provided the key was free. *)
Theorem upload_then_delete app fileName text now1 now2 :
  sessions app !! ("session-" +:+ pretty now1) = None →
  let app' := handleDeleteSession ("session-" +:+ pretty now1) true
                (handleFileChange (Some {| name := fileName; file_text := Some text |})
                   now1 now2 app) in
  sessions app' = sessions app ∧ activeSessionId app' = None.
Proof.
  intros Hfree. unfold handleDeleteSession, handleFileChange. simpl.
  rewrite bool_decide_eq_true_2 by done. simpl.
  split; [|done]. by rewrite delete_insert_eq, delete_id.
Qed.

Lemma upload_then_delete_witness :
  sessions sample_empty !! ("session-" +:+ pretty 100) = None ∧
  sessions (handleDeleteSession ("session-" +:+ pretty 100) true sample_configuring)
  = sessions sample_empty.
Proof.
  split; [vm_compute; reflexivity|].
  apply (upload_then_delete sample_empty "doc1" "Primes." 100 100).
  vm_compute; reflexivity.
Defined.

(** X6.  [resetSession(true)] ("Changer de fichier", "Nouveau Quiz"): the
    session is deselected whatever the user answers to the confirmation;
    it is deleted only when the user confirms, and a refusal keeps the
    whole store. *)
Theorem resetSession_true_spec app i now :
  activeSessionId app = Some i →
  (activeSessionId (resetSession true false now app) = None ∧
   sessions (resetSession true false now app) = sessions app)
  ∧ (activeSessionId (resetSession true true now app) = None ∧
     sessions (resetSession true true now app) = delete i (sessions app)).
Proof.
  intros Hi. unfold resetSession, handleDeleteSession. rewrite Hi. simpl.
  rewrite bool_decide_eq_true_2 by done. done.
Qed.

Lemma resetSession_true_spec_witness :
  activeSessionId sample_reviewing = Some "session-100" ∧
  activeSessionId (resetSession true false 170 sample_reviewing) = None ∧
  sessions (resetSession true false 170 sample_reviewing) = sessions sample_reviewing.
Proof.
  split; [vm_compute; reflexivity|].
  apply (resetSession_true_spec sample_reviewing "session-100" 170).
  vm_compute; reflexivity.
Defined.

(** X7.  Without an active session every handler leaves the application as it
    is. *)
Theorem handlers_without_active_session app :
  activeSessionId app = None →
  (∀ reply now1 nowApi now2, handleGenerateQuiz reply now1 nowApi now2 app = app)
  ∧ (∀ questionId optionText isMultiple now,
       handleAnswerChange questionId optionText isMultiple now app = app)
  ∧ isQuizAnswered app = Some false
  ∧ (∀ reply now1 now2, handleSubmitQuiz reply now1 now2 app = app)
  ∧ (∀ isNewFile confirmed now, resetSession isNewFile confirmed now app = app)
  ∧ (∀ now, onImproveWeakTopics now app = app ∧ onRecommencer now app = app)
  ∧ (∀ value t now,
       onNumQuestionsChange value now app = app ∧ onQuizTypeClick t now app = app).
Proof.
  intros Hnone.
  assert (activeSession app = None) as Hactive by (unfold activeSession; by rewrite Hnone).
  assert (isQuizAnswered app = Some false) as Hguard
    by (unfold isQuizAnswered; by rewrite Hactive).
  assert (∀ updates now,
            setSessions (updateActiveSession (activeSessionId app) updates now) app = app)
    as Hupdate by (intros; rewrite Hnone; by destruct app).
  repeat split; intros.
  - unfold handleGenerateQuiz. by rewrite Hactive.
  - unfold handleAnswerChange. by rewrite Hactive.
  - done.
  - unfold handleSubmitQuiz. by rewrite Hguard.
  - unfold resetSession. by rewrite Hnone.
  - apply Hupdate.
  - apply Hupdate.
  - apply Hupdate.
  - apply Hupdate.
Qed.

Lemma handlers_without_active_session_witness :
  activeSessionId sample_empty = None ∧
  handleAnswerChange "q1" "2" true 10 sample_empty = sample_empty.
Proof.
  split; [reflexivity|].
  apply (handlers_without_active_session sample_empty). reflexivity.
Defined.

(** ** Answers, once more *)

Lemma toggle_elem (l : list string) o a : a ∈ toggle l o → a = o ∨ a ∈ l.
Proof.
  unfold toggle. case_bool_decide.
  - intros [_ ?]%list_elem_of_filter. by right.
  - intros [?| ->%list_elem_of_singleton]%elem_of_app; auto.
Qed.

(** X8.  A single-choice answer ([isMultiple] false) replaces whatever was
    selected for the question by the one option, and touches nothing
    else of the session but [lastAccessed]: the answers to the other
    questions, the questions, the state and the correction are kept. *)
Theorem single_choice_answer app s questionId optionText now :
  activeSession app = Some (Full s) →
  ∃ s',
    activeSession (handleAnswerChange questionId optionText false now app)
    = Some (Full s') ∧
    userAnswers s' !! questionId = Some [optionText] ∧
    (∀ q, q ≠ questionId → userAnswers s' !! q = userAnswers s !! q) ∧
    questions s' = questions s ∧ state s' = state s ∧ correction s' = correction s ∧
    error s' = error s ∧ lastAccessed s' = now.
Proof.
  intros Hactive. eexists. split; [by apply handleAnswerChange_full|].
  rewrite userAnswers_answered. split; [by rewrite lookup_insert_eq|].
  split; [intros q Hq; by rewrite lookup_insert_ne|]. by destruct s.
Qed.

Lemma single_choice_answer_witness :
  activeSession sample_two_answers = Some (Full (session_of sample_two_answers)) ∧
  ∃ s',
    activeSession (handleAnswerChange "q1" "4" false 135 sample_two_answers)
    = Some (Full s') ∧
    userAnswers s' !! "q1" = Some ["4"].
Proof.
  split; [vm_compute; reflexivity|].
  destruct (single_choice_answer sample_two_answers (session_of sample_two_answers)
              "q1" "4" 135) as (s' & Hs' & Hanswer & _).
  { vm_compute; reflexivity. }
  by exists s'.
Defined.

(** X9.  A multiple-choice answer ([isMultiple] true) toggles the one option:
    it is selected afterwards exactly when it was not selected before,
    and the other selected options stay, in the order they had.  This
    holds whenever [userAnswers[questionId]] is a stored sequence or is
    [undefined].  When nothing is stored and the identifier names a
    member that plain objects inherit, [currentAnswers.includes] is not
    a function: the handler throws and the application is left as it
    was. *)
Theorem multiple_choice_answer app s questionId optionText now :
  activeSession app = Some (Full s) →
  ((∀ m, readAnswers (userAnswers s) questionId ≠ answers_inherited m) →
   ∃ s',
     activeSession (handleAnswerChange questionId optionText true now app)
     = Some (Full s') ∧
     (optionText ∈ storedAnswers (userAnswers s') questionId
      ↔ optionText ∉ storedAnswers (userAnswers s) questionId) ∧
     filter (λ a, a ≠ optionText) (storedAnswers (userAnswers s') questionId)
     = filter (λ a, a ≠ optionText) (storedAnswers (userAnswers s) questionId) ∧
     (∀ q, q ≠ questionId → userAnswers s' !! q = userAnswers s !! q))
  ∧ ((∃ m, readAnswers (userAnswers s) questionId = answers_inherited m) →
     handleAnswerChange questionId optionText true now app = app).
Proof.
  intros Hactive.
  destruct (newAnswers_cases (userAnswers s) questionId optionText true)
    as [(l & Hnew & ->)|(Hnew & _ & m & Hread)]; split.
  - intros _. eexists. split; [by eapply handleAnswerChange_full|].
    rewrite userAnswers_answered, storedAnswers_insert.
    split; [|split; [|intros q Hq; by rewrite lookup_insert_ne]].
    + unfold toggle. case_bool_decide as Hin.
      * rewrite list_elem_of_filter. split; [by intros [? _]|done].
      * rewrite elem_of_app, list_elem_of_singleton. split; [done|auto].
    + unfold toggle. case_bool_decide as Hin.
      * apply list_filter_filter_l. done.
      * rewrite filter_app, filter_cons_False, filter_nil, app_nil_r; [done|].
        by intros [].
  - intros (m & Hread). exfalso.
    destruct (readAnswers_cases (userAnswers s) questionId)
      as [[_ Hown]|(m' & _ & Hcur & _)]; [by destruct (Hown m)|].
    by rewrite Hcur in Hnew.
  - intros Hown. by destruct (Hown m).
  - intros _. by eapply handleAnswerChange_throws.
Qed.

Lemma multiple_choice_answer_witness :
  activeSession sample_two_answers = Some (Full (session_of sample_two_answers)) ∧
  (∀ m, readAnswers (userAnswers (session_of sample_two_answers)) "q1"
        ≠ answers_inherited m) ∧
  ∃ s',
    activeSession (handleAnswerChange "q1" "2" true 135 sample_two_answers)
    = Some (Full s') ∧
    ("2" ∈ storedAnswers (userAnswers s') "q1"
     ↔ "2" ∉ storedAnswers (userAnswers (session_of sample_two_answers)) "q1").
Proof.
  split; [vm_compute; reflexivity|].
  assert (∀ m, readAnswers (userAnswers (session_of sample_two_answers)) "q1"
               ≠ answers_inherited m) as Hown by (intros m; vm_compute; discriminate).
  split; [exact Hown|].
  destruct (proj1 (multiple_choice_answer sample_two_answers
                     (session_of sample_two_answers) "q1" "2" 135 eq_refl) Hown)
    as (s' & Hs' & Htoggle & _).
  by exists s'.
Defined.

(** A checkbox of a question called [constructor]: the click throws and
    nothing is stored. *)
Lemma multiple_choice_answer_inherited :
  activeSession sample_inherited_options
  = Some (Full (session_of sample_inherited_options)) ∧
  readAnswers (userAnswers (session_of sample_inherited_options)) "constructor"
  = answers_inherited (inherited_function 1) ∧
  handleAnswerChange "constructor" "2" true 130 sample_inherited_options
  = sample_inherited_options.
Proof. repeat split; vm_compute; reflexivity. Qed.

(** ** Grading *)

Lemma correctAndReviewQuiz_throws reply err :
  correctAndReviewQuiz reply = inr err → errorMessage err ≠ "".
Proof. destruct reply; simpl; [done|]. by intros [= <-]. Qed.

(** X10.  The call of the grader that belongs to a session settles: a grading
    is stored as [correction], its [weakTopics] as the session's, and the
    state becomes [REVIEWING_QUIZ]; a failure gives the state [ERROR] and
    a non-empty message and keeps the correction and the weak topics
    there were.  Either way the questions and the answers are kept. *)
Theorem grading_settles app i s reply now :
  sessions app !! i = Some (Full s) →
  ∃ s',
    sessions (handleSubmitQuiz_resume (Some i) (correctAndReviewQuiz reply) now app) !! i
    = Some (Full s') ∧
    questions s' = questions s ∧ userAnswers s' = userAnswers s ∧
    match reply with
    | Some result =>
        state s' = REVIEWING_QUIZ ∧ correction s' = Some result ∧
        weakTopics s' = Some (correction_weakTopics result) ∧ error s' = error s
    | None =>
        state s' = ERROR ∧ (∃ m, error s' = error_message m ∧ m ≠ "") ∧
        correction s' = correction s ∧ weakTopics s' = weakTopics s
    end.
Proof.
  intros Hs. eexists. split.
  { unfold handleSubmitQuiz_resume, setSessions. cbn [sessions].
    rewrite updateActiveSession_lookup, Hs. reflexivity. }
  destruct reply as [result|]; destruct s; simpl; repeat split; eauto.
Qed.

Lemma grading_settles_witness :
  sessions sample_submitting !! "session-100"
  = Some (Full (session_of sample_submitting)) ∧
  ∃ s',
    sessions (handleSubmitQuiz_resume (Some "session-100")
                (correctAndReviewQuiz None) 150 sample_submitting) !! "session-100"
    = Some (Full s') ∧
    state s' = ERROR.
Proof.
  split; [vm_compute; reflexivity|].
  destruct (grading_settles sample_submitting "session-100"
              (session_of sample_submitting) None 150)
    as (s' & Hs' & _ & _ & Hstate & _).
  { vm_compute; reflexivity. }
  by exists s'.
Defined.

(** ** A session deleted while a call is in flight *)

Lemma entry_key_not_id f : (entry_toJs f).1 ≠ "id".
Proof. by destruct f. Qed.

Lemma defined_without_id (l acc : list (string * JsVal)) :
  lookupProp "id" acc = None →
  Forall (λ p, p.1 ≠ "id") l →
  lookupProp "id" (foldl (λ props p, defineProperty p.1 p.2 props) acc l) = None.
Proof.
  intros Hacc Hl. revert acc Hacc.
  induction Hl as [|[k v] l Hk _ IH]; intros acc Hacc; simpl; [done|].
  apply IH. clear IH. simpl in Hk.
  induction acc as [|[k' v'] acc IHacc]; simpl in *.
  - by rewrite bool_decide_eq_false_2.
  - destruct (decide (k' = "id")) as [->|Hne].
    + by rewrite bool_decide_eq_true_2 in Hacc.
    + rewrite bool_decide_eq_false_2 in Hacc by done.
      case_bool_decide; simpl; rewrite bool_decide_eq_false_2; auto.
Qed.

(** X11.  When the session of a call in flight has been deleted, the settling
    of the call puts an object back under the deleted key: it holds the
    entries of the update and [lastAccessed] and nothing else, so that it
    has no [id]. *)
Theorem settling_after_delete app i outcome now :
  sessions app !! i = None →
  let app' := handleGenerateQuiz_resume (Some i) outcome now app in
  sessions app' !! i
  = Some (Orphan (generate_settled_updates outcome ++ [set_lastAccessed now])) ∧
  (∀ o, sessions app' !! i = Some o →
        getProp "id" (SessionObj_toJs o) = VUndefined ∧ obj_lastAccessed o = Some now) ∧
  (∀ j, j ≠ i → sessions app' !! j = sessions app !! j).
Proof.
  intros Hi app'. unfold app', handleGenerateQuiz_resume, setSessions. cbn [sessions].
  rewrite updateActiveSession_lookup, Hi. simpl.
  split; [done|]. split.
  - intros o [= <-]. split.
    + simpl. rewrite defined_without_id; [done..|].
      apply Forall_fmap, Forall_forall. intros f _. apply entry_key_not_id.
    + simpl. rewrite omap_app. simpl. by rewrite last_snoc.
  - intros j Hj. unfold updateActiveSession. by rewrite lookup_insert_ne.
Qed.

Lemma settling_after_delete_witness :
  sessions sample_deleted_meanwhile !! "session-100" = None ∧
  sessions (handleGenerateQuiz_resume (Some "session-100")
              (generateQuiz (Some [sample_question]) 120) 120 sample_deleted_meanwhile)
    !! "session-100"
  = Some (Orphan [set_questions [sample_question]; set_userAnswers ∅;
                  set_correction None; set_state TAKING_QUIZ; set_lastAccessed 120]).
Proof.
  split; [vm_compute; reflexivity|].
  apply (settling_after_delete sample_deleted_meanwhile "session-100"
           (generateQuiz (Some [sample_question]) 120) 120).
  vm_compute; reflexivity.
Defined.

(** ** What the life of a session keeps *)

Lemma quiz_inv_created fileName text (now1 now2 : Z) :
  quiz_inv (newSession ("session-" +:+ pretty now1) fileName text now2).
Proof.
  split; simpl; try done.
  - by intros [|[|]].
  - by intros [|].
  - right. right. exists 5. split; [done|lia].
Qed.

Lemma Math_max_count value :
  Math_max (Num 1) (parseInt10 value) = NaN
  ∨ Math_max (Num 1) (parseInt10 value) = Infinity
  ∨ ∃ z, Math_max (Num 1) (parseInt10 value) = Num z ∧ 1 ≤ z.
Proof.
  destruct (parseInt10 value) as [|z| |]; simpl; [by left| |by right; left|].
  - right. right. exists (Z.max 1 z). split; [done|lia].
  - right. right. by exists 1.
Qed.

Lemma quiz_inv_answer s qIndex oIndex q o isMultiple now l :
  quiz_inv s → state s = TAKING_QUIZ →
  questions s !! qIndex = Some q → options q !! oIndex = Some o →
  newAnswers (currentAnswers (userAnswers s) (question_id q)) (text o) isMultiple
  = Some l →
  quiz_inv (applyUpdates (answer_updates (userAnswers s) (question_id q) l) now s).
Proof.
  intros [Hreview Hquestions Hanswered Herror Hnodup Hoptions Hcount] Hstate Hq Ho Hnew.
  assert (q ∈ questions s) as Hqin by (by eapply list_elem_of_lookup_2).
  assert (text o ∈ optionTexts q) as Hoin.
  { apply list_elem_of_fmap. exists o. split; [done|]. by eapply list_elem_of_lookup_2. }
  assert (NoDup l ∧ ∀ a, a ∈ l → a = text o ∨ a ∈ storedAnswers (userAnswers s) (question_id q))
    as [Hl Hmembers].
  { destruct (newAnswers_cases (userAnswers s) (question_id q) (text o) isMultiple)
      as [(l' & Hnew' & Hl')|[Hnew' _]]; [|congruence].
    assert (l' = l) as -> by congruence. subst l.
    assert (NoDup (storedAnswers (userAnswers s) (question_id q))) as Hstored.
    { unfold storedAnswers.
      destruct (userAnswers s !! question_id q) eqn:Hcur; simpl; [|constructor].
      by eapply Hnodup. }
    destruct isMultiple.
    - split; [by apply toggle_NoDup|]. intros a. apply toggle_elem.
    - split; [apply NoDup_singleton|]. intros a ->%list_elem_of_singleton. by left. }
  destruct s. simpl in *. subst. split; simpl; try done.
  - by intros [|].
  - intros qid l'. destruct (decide (question_id q = qid)) as [<-|Hne].
    + rewrite lookup_insert_eq. by intros [= <-].
    + rewrite lookup_insert_ne by done. apply Hnodup.
  - intros qid l'. destruct (decide (question_id q = qid)) as [<-|Hne].
    + rewrite lookup_insert_eq. intros [= <-]. split; [by exists q|].
      intros a [->|Hold]%Hmembers; [by exists q|].
      unfold storedAnswers in Hold.
      destruct (userAnswers0 !! question_id q) eqn:Hcur; simpl in Hold.
      * by eapply (Hoptions (question_id q)).
      * by apply elem_of_nil in Hold.
    + rewrite lookup_insert_ne by done. apply Hoptions.
Qed.

Lemma quiz_inv_act s a now s' :
  quiz_inv s → act a now s = Some s' → quiz_inv s'.
Proof.
  intros Hinv Hact. destruct a.
  5: { apply act_inv in Hact as (updates & Hupd & ->). unfold action_updates in Hupd.
    destruct (state s) eqn:Hstate; try done.
    destruct (questions s !! qIndex) as [q|] eqn:Hq; [|done]. simpl in Hupd.
    destruct (options q !! oIndex) as [o|] eqn:Ho; [|done]. simpl in Hupd.
    destruct (newAnswers _ _ _) as [l|] eqn:Hnew; [|done]. simplify_eq/=.
    by eapply quiz_inv_answer. }
  all: destruct Hinv as [Hreview Hquestions Hanswered Herror Hnodup Hoptions Hcount].
  all: destruct s; destruct error0; simpl in *.
  all: act_cases Hact.
  all: try (destruct Herror; done).
  all: unfold correctAndReviewQuiz, no_question_error in *;
    repeat case_match; simplify_eq.
  all: split; simpl in *; intros.
  all: try done.
  all: try (destruct_or!; simplify_eq; done).
  all: try (by apply Math_max_count).
  all: eauto using generateQuiz_throws.
  all: intros ->; by match goal with
                     | H : bool_decide _ = false |- _ => vm_compute in H
                     end.
Qed.

Lemma reaches_quiz_inv history s : reaches history s → quiz_inv s.
Proof. induction 1; eauto using quiz_inv_created, quiz_inv_act. Qed.

Lemma sample_reviewing_reached :
  reaches (rev (sample_graded.*1)) (session_of sample_reviewing).
Proof.
  apply (run_reaches sample_graded [] sample_created).
  - apply reaches_created.
  - vm_compute. reflexivity.
Qed.

Lemma sample_taking_reached :
  reaches (rev ((take 3 sample_graded).*1)) (session_of sample_answered).
Proof.
  apply (run_reaches (take 3 sample_graded) [] sample_created).
  - apply reaches_created.
  - vm_compute. reflexivity.
Qed.

Lemma mapM_None {A B} (f : A → option B) (l : list A) :
  mapM f l = None ↔ ∃ x, x ∈ l ∧ f x = None.
Proof.
  induction l as [|x l IH]; csimpl.
  - split; [done|]. by intros (x & ?%elem_of_nil & _).
  - destruct (f x) as [y|] eqn:Hx; csimpl.
    + destruct (mapM f l) as [k|] eqn:Hl; csimpl.
      * split; [done|]. intros (x' & [->|Hin]%elem_of_cons & Hx'); [congruence|].
        assert (Some k = None) as Habsurd by (apply IH; eauto). done.
      * split; [|done]. intros _.
        destruct (proj1 IH eq_refl) as (x' & Hin & Hx'). exists x'. split; [by right|done].
    + split; [|done]. intros _. exists x. split; [by left|done].
Qed.

Lemma isSelected_None s q o :
  isSelected s q o = None ↔
  ∃ m, readAnswers (userAnswers s) (question_id q) = answers_inherited m.
Proof.
  unfold isSelected. destruct (readAnswers _ _) as [l|m|].
  - split; [done|]. by intros (m & ?).
  - split; [eauto|done].
  - split; [done|]. by intros (m & ?).
Qed.

(** [renderQuiz] throws exactly when a question that has an option finds
    an inherited member in the place of its answers. *)
Lemma renderQuiz_throws s :
  renderQuiz s = throws_TypeError ↔
  ∃ q m, q ∈ questions s ∧ options q ≠ [] ∧
         readAnswers (userAnswers s) (question_id q) = answers_inherited m.
Proof.
  unfold renderQuiz.
  destruct (mapM _ (questions s)) as [checked|] eqn:Hmap.
  - split; [done|]. intros (q & m & Hq & Hoptions & Hread). exfalso.
    assert (mapM (λ q, mapM (isSelected s q) (options q)) (questions s) = None)
      as Hnone; [|congruence].
    apply mapM_None. exists q. split; [done|].
    destruct (options q) as [|o rest] eqn:Ho; [done|].
    apply mapM_None. exists o. split; [by left|]. apply isSelected_None. eauto.
  - split; [|done]. intros _.
    apply mapM_None in Hmap as (q & Hq & Hoptions).
    apply mapM_None in Hoptions as (o & Ho & Hselected).
    apply isSelected_None in Hselected as (m & Hread).
    exists q, m. split; [done|]. split; [|done].
    intros Hnil. rewrite Hnil in Ho. by apply elem_of_nil in Ho.
Qed.

Lemma renderQuiz_not_null s : renderQuiz s ≠ returns_null.
Proof. unfold renderQuiz. by destruct (mapM _ _). Qed.

(** X12.  For a session reached from its creation [renderActiveSession]
    never returns [null]: the review in particular always has its
    correction, and the session's [weakTopics] are then those of the
    correction.  It throws, leaving the page empty, exactly when the
    session is in [TAKING_QUIZ] and a question that has an option finds,
    with nothing stored for it, a member that plain objects inherit
    (the generator called it [constructor], say); so a view is shown
    whenever no identifier of the quiz names such a member. *)
Theorem view_never_null history s :
  reaches history s →
  renderActiveSession (Some s) ≠ returns_null
  ∧ (renderActiveSession (Some s) = throws_TypeError ↔
     state s = TAKING_QUIZ ∧
     ∃ q m, q ∈ questions s ∧ options q ≠ [] ∧
            readAnswers (userAnswers s) (question_id q) = answers_inherited m)
  ∧ ((∀ q, q ∈ questions s → Object_prototype (question_id q) = None) →
     ∃ view, renderActiveSession (Some s) = returns view)
  ∧ (state s = REVIEWING_QUIZ →
     renderActiveSession (Some s) = returns Review ∧
     ∃ c, correction s = Some c ∧ weakTopics s = Some (correction_weakTopics c)).
Proof.
  intros [Hreview _ _ _ _ _ _]%reaches_quiz_inv.
  assert (renderActiveSession (Some s) = throws_TypeError ↔
          state s = TAKING_QUIZ ∧
          ∃ q m, q ∈ questions s ∧ options q ≠ [] ∧
                 readAnswers (userAnswers s) (question_id q) = answers_inherited m)
    as Hthrows.
  { unfold renderActiveSession, renderReview.
    destruct (state s) eqn:Hstate; try (split; [done|by intros [? _]]).
    - rewrite renderQuiz_throws. split; [by split|by intros [_ ?]].
    - destruct (Hreview eq_refl) as (c & -> & _). split; [done|by intros [? _]]. }
  assert (renderActiveSession (Some s) ≠ returns_null) as Hnull.
  { unfold renderActiveSession, renderReview.
    destruct (state s) eqn:Hstate; try done.
    - apply renderQuiz_not_null.
    - by destruct (Hreview eq_refl) as (c & -> & _). }
  split; [done|]. split; [done|]. split.
  - intros Hids.
    destruct (renderActiveSession (Some s)) as [|view|] eqn:Hview; [done|eauto|].
    destruct (proj1 Hthrows eq_refl) as (_ & q & m & Hq & _ & Hread). exfalso.
    unfold readAnswers in Hread. rewrite (Hids q Hq) in Hread.
    by destruct (userAnswers s !! question_id q).
  - intros Hstate. unfold renderActiveSession, renderReview. rewrite Hstate.
    destruct (Hreview Hstate) as (c & Hc & Hw). rewrite Hc. eauto.
Qed.

Lemma view_never_null_witness :
  reaches (rev (sample_graded.*1)) (session_of sample_reviewing) ∧
  renderActiveSession (Some (session_of sample_reviewing)) ≠ returns_null.
Proof.
  split; [exact sample_reviewing_reached|].
  apply (view_never_null _ _ sample_reviewing_reached).
Defined.

(** The quiz whose question is called [constructor] and has options is
    reached by a generation, and its view throws. *)
Lemma view_throws_inherited :
  run [(ClickGenerate, 110);
       (GenerateSettles (Some [{| question_id := "constructor";
                                  questionText := "Which of these are prime?";
                                  options := options sample_question;
                                  type := multiple |}]) 120, 120)] sample_created
  = Some (session_of sample_inherited_options) ∧
  renderActiveSession (Some (session_of sample_inherited_options)) = throws_TypeError.
Proof. split; vm_compute; reflexivity. Qed.

(** X13.  While a quiz is taken, submitted or reviewed it has at least one
    question, and once it is submitted every question has passed the
    submit guard: a non-empty sequence is stored for it, or nothing is
    stored and its identifier names a function with parameters that
    plain objects inherit.  So the grader is never sent an unanswered
    question when no identifier of the quiz names an inherited member,
    and it can be sent one otherwise. *)
Theorem submitted_quiz_passed_guard history s :
  reaches history s →
  (state s = TAKING_QUIZ ∨ state s = SUBMITTING_QUIZ ∨ state s = REVIEWING_QUIZ →
   questions s ≠ [])
  ∧ (state s = SUBMITTING_QUIZ ∨ state s = REVIEWING_QUIZ →
     (∀ q, q ∈ questions s →
        (∃ a, userAnswers s !! question_id q = Some a ∧ a ≠ []) ∨
        (userAnswers s !! question_id q = None ∧
         ∃ n, Object_prototype (question_id q) = Some (inherited_function n) ∧ 0 < n))
     ∧ ((∀ q, q ∈ questions s → Object_prototype (question_id q) = None) →
        ∀ q, q ∈ questions s → ∃ a, userAnswers s !! question_id q = Some a ∧ a ≠ [])).
Proof.
  intros [_ Hquestions Hanswered _ _ _ _]%reaches_quiz_inv. split; [done|].
  intros Hstate. split.
  - by apply quizAnswered_spec, Hanswered.
  - intros Hids. by apply (quizAnswered_own _ _ Hids), Hanswered.
Qed.

Lemma submitted_quiz_passed_guard_witness :
  reaches [ClickSubmit; ChangeAnswer 0 0;
           GenerateSettles (Some [sample_question]) 120; ClickGenerate]
    (session_of sample_submitting) ∧
  questions (session_of sample_submitting) ≠ [].
Proof.
  split; [exact sample_submitting_reached|].
  apply (submitted_quiz_passed_guard _ _ sample_submitting_reached).
  right. left. vm_compute; reflexivity.
Defined.

(** A quiz whose question is called [constructor] and has no option is
    submitted with nothing stored for it. *)
Lemma submitted_unanswered :
  run [(ClickGenerate, 110);
       (GenerateSettles (Some [sample_inherited_question]) 120, 120);
       (ClickSubmit, 140)] sample_created
  = Some (session_of (handleSubmitQuiz_begin 140 sample_inherited)) ∧
  state (session_of (handleSubmitQuiz_begin 140 sample_inherited)) = SUBMITTING_QUIZ ∧
  userAnswers (session_of (handleSubmitQuiz_begin 140 sample_inherited)) = ∅.
Proof. repeat split; vm_compute; reflexivity. Qed.

(** X14.  The session carries an error message exactly in state [ERROR], and
    the message is never empty; in every other state [error] is [null] or
    was never set. *)
Theorem error_message_only_in_ERROR history s :
  reaches history s →
  (state s = ERROR ↔ ∃ m, error s = error_message m) ∧
  (∀ m, error s = error_message m → m ≠ "").
Proof.
  intros [_ _ _ Herror _ _ _]%reaches_quiz_inv.
  destruct (error s) as [| |m]; split.
  - split; [done|]. by intros [? ?].
  - done.
  - split; [done|]. by intros [? ?].
  - done.
  - destruct Herror. split; eauto.
  - intros ? [= <-]. by destruct Herror.
Qed.

Lemma error_message_only_in_ERROR_witness :
  reaches [ClickRecommencer; SubmitSettles None; ClickSubmit; ChangeAnswer 0 0;
           GenerateSettles (Some [sample_question]) 120; ClickGenerate]
    (session_of sample_acknowledged) ∧
  (state (session_of sample_acknowledged) = ERROR
   ↔ ∃ m, error (session_of sample_acknowledged) = error_message m).
Proof.
  split; [exact sample_acknowledged_reached|].
  apply (error_message_only_in_ERROR _ _ sample_acknowledged_reached).
Defined.

(** X15.  In a session reached from its creation every answer sequence is free
    of duplicates, it belongs to a question of the current quiz, and each
    of its members is the text of an option of a question with that
    identifier. *)
Theorem answers_are_options history s qid l :
  reaches history s →
  userAnswers s !! qid = Some l →
  NoDup l ∧
  (∃ q, q ∈ questions s ∧ question_id q = qid) ∧
  (∀ a, a ∈ l → ∃ q, q ∈ questions s ∧ question_id q = qid ∧ a ∈ optionTexts q).
Proof.
  intros [_ _ _ _ Hnodup Hoptions _]%reaches_quiz_inv Hl.
  split; [by eapply Hnodup|]. by apply Hoptions.
Qed.

Lemma answers_are_options_witness :
  reaches (rev ((take 3 sample_graded).*1)) (session_of sample_answered) ∧
  userAnswers (session_of sample_answered) !! "q1" = Some ["2"] ∧
  NoDup ["2"].
Proof.
  split; [exact sample_taking_reached|]. split; [vm_compute; reflexivity|].
  apply (answers_are_options _ (session_of sample_answered) "q1" ["2"]
           sample_taking_reached).
  vm_compute; reflexivity.
Defined.



(** X17.  No action changes the [id], the [fileName] or the [content] of a
    session; the quiz type and the question count change only in
    [CONFIGURING_QUIZ]; and every action stamps [lastAccessed] with the
    reading of the clock. *)
Theorem act_keeps_document a now s s' :
  act a now s = Some s' →
  session_id s' = session_id s ∧ fileName s' = fileName s ∧ content s' = content s ∧
  lastAccessed s' = now ∧
  (state s ≠ CONFIGURING_QUIZ →
   quizType s' = quizType s ∧ numQuestions s' = numQuestions s).
Proof.
  intros Hact. destruct s. act_cases Hact; simpl; repeat split; try done.
Qed.

Lemma act_keeps_document_witness :
  act ClickGenerate 110 sample_created
  = Some (session_of sample_generating) ∧
  content (session_of sample_generating) = content sample_created.
Proof.
  split; [vm_compute; reflexivity|].
  apply (act_keeps_document ClickGenerate 110 sample_created).
  vm_compute; reflexivity.
Defined.

(** ** The list of documents *)

Lemma sortInsert_Permutation {A} (comparefn : A → A → JsNumber) a (l : list A) :
  sortInsert comparefn a l ≡ₚ a :: l.
Proof.
  induction l as [|b l IH]; simpl; [done|].
  destruct (isPositive (comparefn a b)); [|done].
  by rewrite IH, Permutation_swap.
Qed.

Lemma Array_sort_Permutation {A} (comparefn : A → A → JsNumber) (l : list A) :
  Array_sort comparefn l ≡ₚ l.
Proof.
  induction l as [|a l IH]; simpl; [done|].
  by rewrite sortInsert_Permutation, IH.
Qed.

Lemma sortInsert_sorted a (l : list SessionObj) :
  is_Some (obj_lastAccessed a) →
  Forall (λ o, is_Some (obj_lastAccessed o)) l →
  StronglySorted not_older l →
  StronglySorted not_older (sortInsert byLastAccessed a l).
Proof.
  intros [x Hx] Hstamps Hsorted.
  induction Hsorted as [|b l Hl IH Hb]; simpl.
  { repeat constructor. }
  apply Forall_cons in Hstamps as [[y Hy] Hstamps].
  unfold byLastAccessed at 1. rewrite Hx, Hy. simpl. case_bool_decide as Hlt.
  - constructor; [by apply IH|].
    rewrite sortInsert_Permutation. constructor; [|done].
    exists y, x. repeat split; [done..|lia].
  - constructor; [by constructor|]. constructor.
    + exists x, y. repeat split; [done..|lia].
    + eapply Forall_impl; [exact Hb|]. intros c (y' & z & Hy' & Hz & Hle).
      exists x, z. repeat split; [done..|]. simplify_eq. lia.
Qed.

Lemma sortedSessions_sorted (values : list SessionObj) :
  Forall (λ o, is_Some (obj_lastAccessed o)) values →
  StronglySorted not_older (sortedSessions values).
Proof.
  unfold sortedSessions. induction 1 as [|a l Ha Hl IH]; simpl; [constructor|].
  apply sortInsert_sorted; [done| |done].
  by rewrite Array_sort_Permutation.
Qed.

(** X18.  The list of documents holds exactly the stored objects, and it is
    ordered by [lastAccessed], the most recent first, as soon as every
    stored object carries a time stamp (every object that
    [handleFileChange] or [updateActiveSession] writes does). *)
Theorem sortedSessions_spec (values : list SessionObj) :
  sortedSessions values ≡ₚ values
  ∧ (Forall (λ o, is_Some (obj_lastAccessed o)) values →
     StronglySorted not_older (sortedSessions values)).
Proof. split; [apply Array_sort_Permutation|apply sortedSessions_sorted]. Qed.

Lemma sortedSessions_spec_witness :
  Forall (λ o, is_Some (obj_lastAccessed o)) sample_values ∧
  StronglySorted not_older (sortedSessions sample_values).
Proof.
  assert (Forall (λ o, is_Some (obj_lastAccessed o)) sample_values) as Hstamps.
  { repeat constructor; by eexists. }
  split; [exact Hstamps|].
  apply (proj2 (sortedSessions_spec sample_values)). exact Hstamps.
Defined.

(** X19.  The session that was used last heads the list: an object whose time
    stamp is later than that of every other stored object comes first. *)
Theorem last_used_comes_first (values : list SessionObj) o now :
  o ∈ values →
  obj_lastAccessed o = Some now →
  (∀ o', o' ∈ values → o' = o ∨ ∃ x, obj_lastAccessed o' = Some x ∧ x < now) →
  head (sortedSessions values) = Some o.
Proof.
  intros Hin Hnow Hothers.
  assert (sortedSessions values ≡ₚ values) as Hperm
    by apply Array_sort_Permutation.
  assert (StronglySorted not_older (sortedSessions values)) as Hsorted.
  { apply sortedSessions_sorted, Forall_forall. intros o' Ho'.
    destruct (Hothers o' Ho') as [->|(x & Hx & _)]; eauto. }
  destruct (sortedSessions values) as [|h rest] eqn:Hlist.
  { rewrite <- Hperm in Hin. by apply elem_of_nil in Hin. }
  simpl. f_equal.
  assert (h ∈ values) as Hh by (rewrite <- Hperm; by left).
  destruct (Hothers h Hh) as [->|(x & Hx & Hlt)]; [done|].
  rewrite <- Hperm in Hin. apply elem_of_cons in Hin as [->|Hrest]; [done|].
  apply StronglySorted_inv in Hsorted as [_ Hall].
  rewrite Forall_forall in Hall.
  destruct (Hall o Hrest) as (x' & y' & Hx' & Hy' & Hle). simplify_eq. lia.
Qed.

Lemma last_used_comes_first_witness :
  head (sortedSessions sample_values)
  = Some (Full (newSession "session-200" "doc2" "Squares." 200)).
Proof.
  apply (last_used_comes_first sample_values _ 200).
  - right. by left.
  - reflexivity.
  - intros o' [->|[->|[]%elem_of_nil]%elem_of_cons]%elem_of_cons.
    + right. exists 130. split; [vm_compute; reflexivity|lia].
    + by left.
Defined.

(** ** What the grader is sent *)

(** X20.  [correctAndReviewQuiz] builds one entry per question, in order; the
    correct answers of an entry are among its options, in their order;
    the user's answer of an entry is the sequence stored for the
    question, and the empty sequence when nothing is stored and nothing
    is inherited.  When the submit guard holds, which is the only case
    in which [handleSubmitQuiz] calls it, the user's answer of every
    entry is a non-empty sequence, or it is no sequence at all but a
    function that plain objects inherit under the identifier of the
    question; the former is the case for all entries when no identifier
    of the quiz names an inherited member. *)
Theorem quizData_spec (qs : list Question) (answers : UserAnswers) :
  length (quizData qs answers) = length qs
  ∧ (∀ i q, qs !! i = Some q →
       ∃ d, quizData qs answers !! i = Some d ∧
            datum_questionText d = questionText q ∧
            datum_options d = optionTexts q ∧
            correctAnswers d `sublist_of` datum_options d ∧
            (∀ a, a ∈ correctAnswers d ↔
                  ∃ opt, opt ∈ options q ∧ isCorrect opt = true ∧ text opt = a) ∧
            (∀ l, answers !! question_id q = Some l →
                  datum_userAnswer d = answers_array l) ∧
            (answers !! question_id q = None →
             Object_prototype (question_id q) = None →
             datum_userAnswer d = answers_array []))
  ∧ (quizAnswered qs answers = true →
     Forall (λ d, (∃ l, datum_userAnswer d = answers_array l ∧ l ≠ []) ∨
                  (∃ n, datum_userAnswer d = answers_inherited (inherited_function n) ∧
                        0 < n))
       (quizData qs answers))
  ∧ (quizAnswered qs answers = true →
     (∀ q, q ∈ qs → Object_prototype (question_id q) = None) →
     Forall (λ d, ∃ l, datum_userAnswer d = answers_array l ∧ l ≠ [])
       (quizData qs answers)).
Proof.
  split; [|split; [|split]].
  - unfold quizData. by rewrite length_fmap.
  - intros i q Hq. eexists. split.
    { unfold quizData. rewrite list_lookup_fmap, Hq. reflexivity. }
    simpl. repeat split; try done.
    + apply (fmap_sublist text), sublist_filter.
    + intros (opt & -> & [Hcorrect Hopt]%list_elem_of_filter)%list_elem_of_fmap. eauto.
    + intros (opt & Hopt & Hcorrect & <-). apply list_elem_of_fmap.
      exists opt. split; [done|]. by apply list_elem_of_filter.
    + intros l Hl. unfold currentAnswers, readAnswers. by rewrite Hl.
    + intros Hnone Hproto. unfold currentAnswers, readAnswers. by rewrite Hnone, Hproto.
  - intros [_ Hall]%quizAnswered_spec. unfold quizData.
    apply Forall_fmap, Forall_forall. intros q Hq. simpl.
    unfold currentAnswers, readAnswers.
    destruct (Hall q Hq) as [(a & -> & Hne)|(-> & n & -> & Hn)]; [left|right]; eauto.
  - intros Hguard Hids. apply (quizAnswered_own _ _ Hids) in Hguard as [_ Hall].
    unfold quizData. apply Forall_fmap, Forall_forall. intros q Hq. simpl.
    unfold currentAnswers, readAnswers.
    destruct (Hall q Hq) as (a & -> & Hne). eauto.
Qed.

Lemma quizData_spec_witness :
  quizAnswered [sample_question] {[ "q1" := ["2"] ]} = true ∧
  (∀ q, q ∈ [sample_question] → Object_prototype (question_id q) = None) ∧
  Forall (λ d, ∃ l, datum_userAnswer d = answers_array l ∧ l ≠ [])
    (quizData [sample_question] {[ "q1" := ["2"] ]}).
Proof.
  split; [vm_compute; reflexivity|].
  assert (∀ q, q ∈ [sample_question] → Object_prototype (question_id q) = None) as Hids.
  { intros q ->%list_elem_of_singleton. vm_compute; reflexivity. }
  split; [exact Hids|].
  apply (proj2 (proj2 (proj2 (quizData_spec [sample_question] {[ "q1" := ["2"] ]})))).
  - vm_compute; reflexivity.
  - exact Hids.
Defined.

(** ** The identifiers of generated questions *)

Lemma afterLastDash_digit (d : N) s :
  (d < 10)%N → afterLastDash (String (pretty_N_char d) s) = afterLastDash s.
Proof.
  intros Hd.
  assert (d = 0 ∨ d = 1 ∨ d = 2 ∨ d = 3 ∨ d = 4 ∨ d = 5 ∨ d = 6 ∨ d = 7 ∨ d = 8 ∨ d = 9)%N
    as Hcases by lia.
  destruct_or!; subst; simpl; by destruct (afterLastDash s).
Qed.

Lemma afterLastDash_pretty_N_go (x : N) : ∀ s,
  afterLastDash (pretty_N_go x s) = afterLastDash s.
Proof.
  induction (N.lt_wf_0 x) as [x _ IH]. intros s.
  destruct (decide (x = 0%N)) as [->|Hx]; [by rewrite pretty_N_go_0|].
  rewrite pretty_N_go_step by lia.
  rewrite IH by (apply N.div_lt; lia).
  apply afterLastDash_digit. by apply N.mod_lt.
Qed.

Lemma afterLastDash_pretty_nat (i : nat) : afterLastDash (pretty i) = None.
Proof.
  unfold pretty, pretty_nat, pretty, pretty_N.
  case_decide; [done|]. by rewrite afterLastDash_pretty_N_go.
Qed.

Lemma afterLastDash_app a t :
  afterLastDash t = None → afterLastDash (a +:+ "-" +:+ t) = Some t.
Proof.
  intros Ht. induction a as [|c a IH].
  - change (afterLastDash (String "-" t) = Some t). simpl. by rewrite Ht.
  - change (afterLastDash (String c (a +:+ "-" +:+ t)) = Some t).
    simpl. by rewrite IH.
Qed.

Lemma patched_id_inj (a b : string) (i j : nat) :
  a +:+ "-" +:+ pretty i = b +:+ "-" +:+ pretty j → i = j.
Proof.
  intros Heq. apply (f_equal afterLastDash) in Heq.
  rewrite !afterLastDash_app in Heq by apply afterLastDash_pretty_nat.
  injection Heq as Heq. by apply (inj pretty) in Heq.
Qed.

(** X21.  When [generateQuiz] succeeds it returns as many questions as the
    reply holds, each with its text, options and type; a question that
    came with an identifier keeps it, a question that came without gets
    one, so that no returned question has an empty identifier; and two
    questions that both came without get different identifiers,
    whatever the clock reads when each of them is named. *)
Theorem generateQuiz_ids (reply : list Question) (clock : nat → Z) :
  (∀ now, generateQuiz (Some reply) now = inl (patchIds (λ _, now) reply))
  ∧ length (patchIds clock reply) = length reply
  ∧ (∀ i q, reply !! i = Some q →
       ∃ q', patchIds clock reply !! i = Some q' ∧
             question_id q' ≠ "" ∧
             (question_id q ≠ "" → q' = q) ∧
             questionText q' = questionText q ∧ options q' = options q ∧
             type q' = type q)
  ∧ (∀ i j q1 q2 q1' q2',
       reply !! i = Some q1 → reply !! j = Some q2 →
       question_id q1 = "" → question_id q2 = "" →
       patchIds clock reply !! i = Some q1' → patchIds clock reply !! j = Some q2' →
       question_id q1' = question_id q2' → i = j).
Proof.
  split; [done|]. split; [unfold patchIds; by rewrite length_imap|]. split.
  - intros i q Hq. eexists. split.
    { unfold patchIds. rewrite list_lookup_imap, Hq. reflexivity. }
    case_bool_decide as Hid; simpl; [|done].
    split; [done|]. split; [by intros []|done].
  - intros i j q1 q2 q1' q2' Hi Hj Hid1 Hid2. unfold patchIds.
    rewrite !list_lookup_imap, Hi, Hj. simpl.
    rewrite !bool_decide_eq_true_2 by done.
    intros [= <-] [= <-]. simpl. intros Heq.
    apply (patched_id_inj ("q-" +:+ pretty (clock i)) ("q-" +:+ pretty (clock j))).
    exact Heq.
Qed.

(** ** The envelope of the generator's reply *)






(** ** Restarting the application *)

Lemma Json_nested_ind (P : Json → Prop) :
  P JNull → (∀ b, P (JBool b)) → (∀ z, P (JNumber z)) → (∀ s, P (JString s)) →
  (∀ items, Forall P items → P (JArray items)) →
  (∀ members, Forall (λ m, P m.2) members → P (JObject members)) →
  ∀ j, P j.
Proof.
  intros Hnull Hbool Hnumber Hstring Harray Hobject.
  fix IH 1. intros [|b|z|s|items|members].
  - exact Hnull.
  - apply Hbool.
  - apply Hnumber.
  - apply Hstring.
  - apply Harray. induction items as [|x items IHitems]; constructor.
    + apply IH.
    + exact IHitems.
  - apply Hobject. induction members as [|[k x] members IHmembers]; constructor.
    + apply IH.
    + exact IHmembers.
Qed.

(** A value that was read from a document is written and read back as
    it is. *)
Lemma parse_safe j : jsonSafe (parse j) = true.
Proof.
  induction j as [|b|z|s|items IH|members IH] using Json_nested_ind; try done.
  - simpl. induction IH as [|x items Hx _ IHitems]; simpl; [done|].
    by rewrite Hx.
  - simpl. apply andb_true_iff. split.
    + apply forallb_forall. intros p [?%elem_of_nil|Hp]%list_elem_of_In%defined_elem;
        [done|].
      apply list_elem_of_fmap in Hp as (m & -> & Hm).
      rewrite Forall_forall in IH. by apply IH.
    + apply bool_decide_eq_true_2, defined_keys. constructor.
Qed.

(** X23.  A start of the application, left alone until its first save: when
    the storage holds a document, the store in memory is the value of
    the document and the storage ends up with a document of the same
    value; when the storage holds nothing, or a text that does not parse,
    the store in memory is empty and the empty store is what the storage
    ends up with. *)
Theorem restart_spec :
  (∀ j, cell_sessions (current (startup (Some (Document j)))) = parse j ∧
        ∃ j', localStorage (startup (Some (Document j))) = Some (Document j') ∧
              parse j' = parse j)
  ∧ (∀ raw, cell_sessions (current (startup (Some (Malformed raw)))) = VObject [] ∧
            localStorage (startup (Some (Malformed raw))) = Some (Document (JObject [])))
  ∧ (cell_sessions (current (startup None)) = VObject [] ∧
     localStorage (startup None) = Some (Document (JObject []))).
Proof.
  split; [|by split].
  intros j. split; [done|].
  destruct (reload_safe (parse j) (parse_safe j)) as (j' & Hj' & Hparse).
  exists j'. split; [|done].
  destruct (startup_first_write (Some (Document j))) as [_ ->]. simpl.
  unfold stringify. by rewrite Hj'.
Qed.

(** X24.  What a save wrote is what a restart brings back: after the store
    [store] was saved, a start of the application gives, for every
    session and every field, the value the field had, the one exception
    being a question count that is not finite: [NaN] (the field was
    cleared) and [Infinity] (the numeral typed was too long) come back
    as [null]. *)
Theorem restart_restores_fields (store : Sessions) i o k :
  store !! i = Some o →
  ((k = "numQuestions" → numbers_ok o) →
   getProp k (getProp i
     (cell_sessions (current (startup (Some (stringify (Sessions_toJs store)))))))
   = getProp k (getProp i (Sessions_toJs store)))
  ∧ (∀ s, o = Full s → isFinite (numQuestions s) = false →
     getProp "numQuestions" (getProp i
       (cell_sessions (current (startup (Some (stringify (Sessions_toJs store)))))))
     = VNull).
Proof.
  intros Hi. split.
  - intros Hnum. rewrite <- (reload_preserves_fields store i o k Hi Hnum).
    reflexivity.
  - intros s -> Hnum.
    change (cell_sessions (current (startup (Some (stringify (Sessions_toJs store))))))
      with (reload (Sessions_toJs store)).
    destruct (getProp_session store i _ Hi) as [_ ->].
    unfold SessionObj_toJs, DocumentSession_toJs.
    rewrite getProp_reload by (simpl; compute_done).
    simpl. by destruct (numQuestions s).
Qed.

Lemma restart_restores_fields_witness :
  sessions sample_reviewing !! "session-100"
  = Some (Full (session_of sample_reviewing)) ∧
  getProp "fileName" (getProp "session-100"
    (cell_sessions (current (startup
       (Some (stringify (Sessions_toJs (sessions sample_reviewing))))))))
  = VString "doc1".
Proof.
  split; [vm_compute; reflexivity|].
  rewrite (proj1 (restart_restores_fields (sessions sample_reviewing) "session-100"
                    (Full (session_of sample_reviewing)) "fileName" eq_refl)).
  - vm_compute; reflexivity.
  - discriminate.
Defined.

(** ** The question-count field, once more *)

Lemma roundToDouble_exact z : Z.abs z ≤ 2 ^ 53 → roundToDouble z = Num z.
Proof.
  intros Hz. destruct (decide (Z.abs z < 2 ^ 53)) as [Hlt|Hge].
  - unfold roundToDouble. by rewrite bool_decide_eq_true_2.
  - assert (z = 2 ^ 53 ∨ z = - 2 ^ 53) as [->| ->] by lia; vm_compute; reflexivity.
Qed.

(** The significand and the exponent of the rounding. *)
Lemma roundToDouble_large z :
  2 ^ 53 ≤ Z.abs z →
  ∃ m e, 0 ≤ e ∧ 2 ^ 52 ≤ m ∧ 2 ^ Z.log2 (Z.abs z) ≤ m * 2 ^ e ∧
    roundToDouble z
    = if bool_decide (2 ^ 1024 ≤ m * 2 ^ e)
      then (if bool_decide (0 < z) then Infinity else NegInfinity)
      else Num (Z.sgn z * (m * 2 ^ e)).
Proof.
  intros Hz. unfold roundToDouble.
  rewrite bool_decide_eq_false_2 by lia.
  set (a := Z.abs z) in *. set (e := Z.log2 a - 52).
  assert (53 ≤ Z.log2 a) as Hlog.
  { change 53 with (Z.log2 (2 ^ 53)). by apply Z.log2_le_mono. }
  assert (0 ≤ e) as He by (unfold e; lia).
  assert (0 < 2 ^ e) as Hpow by (by apply Z.pow_pos_nonneg).
  assert (2 ^ 52 ≤ a / 2 ^ e) as Hq.
  { apply Z.div_le_lower_bound; [done|].
    rewrite Z.mul_comm, <- Z.pow_add_r by lia.
    replace (52 + e) with (Z.log2 a) by (unfold e; lia).
    apply Z.log2_spec. lia. }
  set (q := a / 2 ^ e) in *.
  set (m := if bool_decide _ then q + 1 else q).
  assert (q ≤ m) as Hm by (unfold m; case_bool_decide; lia).
  exists m, e. split; [done|]. split; [lia|]. split; [|done].
  replace (Z.log2 a) with (52 + e) by (unfold e; lia).
  rewrite Z.pow_add_r by lia. apply Z.mul_le_mono_nonneg_r; lia.
Qed.

Lemma roundToDouble_overflow z : 2 ^ 1024 ≤ z → roundToDouble z = Infinity.
Proof.
  intros Hz.
  assert (0 < z) as Hpos by (pose proof (Z.pow_pos_nonneg 2 1024); lia).
  destruct (roundToDouble_large z) as (m & e & He & Hm & Hlog & ->).
  { rewrite Z.abs_eq by lia. etrans; [|exact Hz]. by apply Z.pow_le_mono_r. }
  rewrite bool_decide_eq_true_2, bool_decide_eq_true_2; [done..|].
  etrans; [|exact Hlog]. apply Z.pow_le_mono_r; [done|].
  rewrite Z.abs_eq by lia.
  change 1024 with (Z.log2 (2 ^ 1024)). by apply Z.log2_le_mono.
Qed.

Lemma roundToDouble_nonpos z :
  z ≤ 0 → roundToDouble z = NegInfinity ∨ ∃ z', roundToDouble z = Num z' ∧ z' ≤ 0.
Proof.
  intros Hz. destruct (decide (Z.abs z < 2 ^ 53)) as [Hlt|Hge].
  - right. exists z. split; [|done]. apply roundToDouble_exact. lia.
  - destruct (roundToDouble_large z) as (m & e & He & Hm & Hlog & ->); [lia|].
    case_bool_decide.
    + left. by rewrite bool_decide_eq_false_2 by lia.
    + right. eexists. split; [done|].
      assert (0 ≤ m * 2 ^ e).
      { apply Z.mul_nonneg_nonneg; [|by apply Z.pow_nonneg].
        pose proof (Z.pow_pos_nonneg 2 52). lia. }
      assert (Z.sgn z = -1) as -> by (apply Z.sgn_neg; lia). lia.
Qed.

Lemma Math_max_nonpos z :
  z ≤ 1 → Math_max (Num 1) (roundToDouble z) = Num 1.
Proof.
  intros Hz. destruct (decide (z ≤ 0)) as [Hneg|Hpos].
  - destruct (roundToDouble_nonpos z Hneg) as [->|(z' & -> & Hz')]; [done|].
    simpl. f_equal. lia.
  - assert (z = 1) as -> by lia. reflexivity.
Qed.

Lemma digitValue_pretty d : (d < 10)%N → digitValue (pretty_N_char d) = Some (Z.of_N d).
Proof.
  intros Hd.
  assert (d = 0 ∨ d = 1 ∨ d = 2 ∨ d = 3 ∨ d = 4 ∨ d = 5 ∨ d = 6 ∨ d = 7 ∨ d = 8 ∨ d = 9)%N
    as Hcases by lia.
  by destruct_or!; subst.
Qed.

Lemma leadingDigits_pretty (x : N) : ∀ s acc,
  default 0 acc = 0 →
  leadingDigits (pretty_N_go x s) acc
  = leadingDigits s (if decide (x = 0%N) then acc else Some (Z.of_N x)).
Proof.
  induction (N.lt_wf_0 x) as [x _ IH]. intros s acc Hacc.
  destruct (decide (x = 0%N)) as [->|Hx]; [by rewrite pretty_N_go_0|].
  rewrite pretty_N_go_step by lia.
  rewrite IH; [|apply N.div_lt; lia|done].
  simpl. rewrite digitValue_pretty by (apply N.mod_lt; lia).
  f_equal. f_equal.
  assert (default 0 (if decide ((x `div` 10)%N = 0%N) then acc
                     else Some (Z.of_N (x `div` 10)))
          = Z.of_N (x `div` 10)) as ->.
  { case_decide as Hdiv; simpl; [|done]. rewrite Hacc, Hdiv. done. }
  change 10 with (Z.of_N 10). rewrite <- N2Z.inj_mul, <- N2Z.inj_add.
  f_equal. symmetry. by apply N.div_mod.
Qed.

Lemma pretty_N_go_head (x : N) : ∀ s,
  (0 < x)%N → ∃ d rest, (d < 10)%N ∧ pretty_N_go x s = String (pretty_N_char d) rest.
Proof.
  induction (N.lt_wf_0 x) as [x _ IH]. intros s Hx.
  rewrite pretty_N_go_step by done.
  destruct (decide (x `div` 10 = 0)%N) as [Hdiv|Hdiv].
  - rewrite Hdiv, pretty_N_go_0. eexists _, _. split; [|done]. by apply N.mod_lt.
  - apply IH; [apply N.div_lt; lia|by apply N.neq_0_lt_0].
Qed.

Lemma pretty_N_go_app (x : N) : ∀ s rest,
  pretty_N_go x s +:+ rest = pretty_N_go x (s +:+ rest).
Proof.
  induction (N.lt_wf_0 x) as [x _ IH]. intros s rest.
  destruct (decide (x = 0%N)) as [->|Hx]; [by rewrite !pretty_N_go_0|].
  rewrite (pretty_N_go_step x s), (pretty_N_go_step x (s +:+ rest)) by lia.
  rewrite IH; [reflexivity|]. apply N.div_lt; lia.
Qed.

Lemma leadingDigits_is_Some s : ∀ a, is_Some (leadingDigits s (Some a)).
Proof.
  induction s as [|c s IH]; intros a; simpl; [by eexists|].
  destruct (digitValue c); [apply IH|by eexists].
Qed.

Lemma leadingDigits_no_digit rest acc :
  leadingDigits rest None = None → leadingDigits rest acc = acc.
Proof.
  destruct rest as [|c rest]; simpl; [done|].
  destruct (digitValue c); [|done].
  intros Hnone. destruct (leadingDigits_is_Some rest (10 * 0 + z)) as [? Hsome].
  simpl in Hnone. congruence.
Qed.

Lemma parseInt10_digits (p : positive) rest :
  leadingDigits rest None = None →
  leadingDigits (pretty (N.pos p) +:+ rest) None = Some (Z.pos p) ∧
  ∃ d tail, (d < 10)%N ∧ pretty (N.pos p) +:+ rest = String (pretty_N_char d) tail.
Proof.
  intros Hrest. unfold pretty, pretty_N. rewrite decide_False by done.
  rewrite pretty_N_go_app. simpl. split.
  - rewrite leadingDigits_pretty by done. rewrite decide_False by done.
    by apply leadingDigits_no_digit.
  - by apply pretty_N_go_head.
Qed.

Lemma pretty_N_char_plain d :
  (d < 10)%N →
  isWhiteSpace (pretty_N_char d) = false ∧
  pretty_N_char d ≠ "-"%char ∧ pretty_N_char d ≠ "+"%char.
Proof.
  intros Hd.
  assert (d = 0 ∨ d = 1 ∨ d = 2 ∨ d = 3 ∨ d = 4 ∨ d = 5 ∨ d = 6 ∨ d = 7 ∨ d = 8 ∨ d = 9)%N
    as Hcases by lia.
  by destruct_or!; subst.
Qed.

Lemma parseInt10_minus body :
  parseInt10 (String "-" body)
  = match leadingDigits body None with
    | Some mathInt => roundToDouble (-1 * mathInt)
    | None => NaN
    end.
Proof. reflexivity. Qed.

(** [parseInt] reads back a decimal numeral, whatever follows it as long
    as that does not start with a digit: text that spells the integer
    [z], such as ["12"], ["12.5"] or ["-3 questions"], is read as the
    double nearest to [z]. *)
Lemma parseInt10_pretty (z : Z) rest :
  leadingDigits rest None = None →
  parseInt10 (pretty z +:+ rest) = roundToDouble z.
Proof.
  intros Hrest. destruct z as [|p|p].
  - unfold parseInt10. simpl. by rewrite leadingDigits_no_digit.
  - change (pretty (Z.pos p)) with (pretty (N.pos p)).
    destruct (parseInt10_digits p rest Hrest) as (Hdigits & d & tail & Hd & Hhead).
    destruct (pretty_N_char_plain d Hd) as (Hspace & Hminus & Hplus).
    unfold parseInt10. rewrite Hhead. simpl. rewrite Hspace.
    rewrite <- Hhead.
    assert (match String (pretty_N_char d) tail with
            | String "-" r => (-1, r)
            | String "+" r => (1, r)
            | _ => (1, String (pretty_N_char d) tail)
            end = (1, String (pretty_N_char d) tail)) as Hsign.
    { clear -Hminus Hplus Hd.
      assert (d = 0 ∨ d = 1 ∨ d = 2 ∨ d = 3 ∨ d = 4 ∨ d = 5 ∨ d = 6 ∨ d = 7 ∨ d = 8 ∨ d = 9)%N
        as Hcases by lia.
      by destruct_or!; subst. }
    by rewrite Hhead, Hsign, <- Hhead, Hdigits.
  - change (pretty (Z.neg p) +:+ rest) with (String "-" (pretty (N.pos p) +:+ rest)).
    destruct (parseInt10_digits p rest Hrest) as (Hdigits & _).
    by rewrite parseInt10_minus, Hdigits.
Qed.

(** X25.  Typing a numeral into the question-count field stores the double
    nearest to the integer it spells, raised to 1 when that is smaller;
    what follows the numeral is ignored as long as it does not start
    with a digit.  For an integer of magnitude up to 2^53 the number
    stored is the integer itself, or 1 (["12"], ["12.5"] and
    ["12 questions"] all store 12, ["0"] and ["-3"] store 1); every
    numeral that spells 1 or less stores 1; a numeral that spells 2^1024
    or more stores [Infinity].  Nothing else of the session changes but
    [lastAccessed]. *)
Theorem typed_count_is_stored app s (z : Z) rest now :
  activeSession app = Some (Full s) →
  leadingDigits rest None = None →
  ∃ s',
    activeSession (onNumQuestionsChange (pretty z +:+ rest) now app) = Some (Full s') ∧
    numQuestions s' = Math_max (Num 1) (roundToDouble z) ∧
    (Z.abs z ≤ 2 ^ 53 → numQuestions s' = Num (Z.max 1 z)) ∧
    (z ≤ 1 → numQuestions s' = Num 1) ∧
    (2 ^ 1024 ≤ z → numQuestions s' = Infinity) ∧
    quizType s' = quizType s ∧ state s' = state s ∧ questions s' = questions s ∧
    userAnswers s' = userAnswers s ∧ lastAccessed s' = now.
Proof.
  intros Hactive Hrest. eexists. split; [by apply active_update|].
  unfold numQuestions_updates. rewrite parseInt10_pretty by done.
  destruct s; simpl. split; [done|]. split; [|split; [|split; [|done]]].
  - intros Hz. by rewrite roundToDouble_exact.
  - apply Math_max_nonpos.
  - intros Hz. by rewrite roundToDouble_overflow.
Qed.

Lemma typed_count_is_stored_witness :
  activeSession sample_configuring = Some (Full (session_of sample_configuring)) ∧
  leadingDigits ".5" None = None ∧
  ∃ s',
    activeSession (onNumQuestionsChange (pretty 12 +:+ ".5") 105 sample_configuring)
    = Some (Full s') ∧
    numQuestions s' = Num 12.
Proof.
  split; [vm_compute; reflexivity|]. split; [vm_compute; reflexivity|].
  destruct (typed_count_is_stored sample_configuring (session_of sample_configuring)
              12 ".5" 105) as (s' & Hs' & _ & Hcount & _).
  { vm_compute; reflexivity. }
  { vm_compute; reflexivity. }
  exists s'. split; [exact Hs'|]. apply Hcount. vm_compute. discriminate.
Defined.

(** A numeral above 2^53 is stored as the nearest double, and a numeral
    of 310 digits as [Infinity], which the next save writes as [null]. *)
Lemma typed_count_rounded :
  numQuestions (session_of (onNumQuestionsChange "9007199254740993" 105 sample_configuring))
  = Num 9007199254740992 ∧
  numQuestions (session_of (onNumQuestionsChange (pretty (10 ^ 309)) 105 sample_configuring))
  = Infinity ∧
  getProp "numQuestions" (getProp "session-100"
    (reload (Sessions_toJs
       (sessions (onNumQuestionsChange (pretty (10 ^ 309)) 105 sample_configuring)))))
  = VNull.
Proof. repeat split; vm_compute; reflexivity. Qed.

(** ** The two handlers that wait, from start to end *)

(** X26.  [handleGenerateQuiz], run to its end on a whole active session,
    never leaves the session waiting: the session ends in [TAKING_QUIZ]
    with the generated questions, no answer and no error when the
    generator returned at least one question, and in [ERROR] otherwise;
    the application still shows the same session. *)
Theorem handleGenerateQuiz_ends app s reply now1 nowApi now2 :
  activeSession app = Some (Full s) →
  ∃ s',
    activeSession (handleGenerateQuiz reply now1 nowApi now2 app) = Some (Full s') ∧
    activeSessionId (handleGenerateQuiz reply now1 nowApi now2 app) = activeSessionId app ∧
    lastAccessed s' = now2 ∧
    match generateQuiz reply nowApi with
    | inl (q :: qs) =>
        state s' = TAKING_QUIZ ∧ questions s' = q :: qs ∧ userAnswers s' = ∅ ∧
        correction s' = None ∧ error s' = error_null
    | _ =>
        state s' = ERROR ∧ (∃ m, error s' = error_message m ∧ m ≠ "") ∧
        questions s' = questions s ∧ userAnswers s' = userAnswers s
    end.
Proof.
  intros Hactive.
  pose proof (handleGenerateQuiz_begin_full _ _ now1 Hactive) as Hbegin.
  pose proof (active_update _ _ Hbegin
                (generate_settled_updates (generateQuiz reply nowApi)) now2) as Hend.
  assert (activeSessionId (handleGenerateQuiz_begin now1 app) = activeSessionId app)
    as Hid by (unfold handleGenerateQuiz_begin; by rewrite Hactive).
  rewrite Hid in Hend.
  eexists. split; [|split; [|split]].
  - unfold handleGenerateQuiz. rewrite Hactive. exact Hend.
  - unfold handleGenerateQuiz. rewrite Hactive. simpl. exact Hid.
  - apply applyUpdates_lastAccessed.
  - destruct (generateQuiz reply nowApi) as [[|q qs]|err] eqn:Hout; destruct s; simpl;
      repeat split; eauto using generateQuiz_throws.
Qed.

Lemma handleGenerateQuiz_ends_witness :
  activeSession sample_configuring = Some (Full (session_of sample_configuring)) ∧
  ∃ s',
    activeSession (handleGenerateQuiz None 110 120 120 sample_configuring)
    = Some (Full s') ∧
    state s' = ERROR.
Proof.
  split; [vm_compute; reflexivity|].
  destruct (handleGenerateQuiz_ends sample_configuring (session_of sample_configuring)
              None 110 120 120) as (s' & Hs' & _ & _ & Hstate & _).
  { vm_compute; reflexivity. }
  by exists s'.
Defined.

(** X27.  [handleSubmitQuiz], run to its end on a whole active session whose
    quiz is answered, never leaves the session waiting: the session ends
    in [REVIEWING_QUIZ] with the grading, or in [ERROR] with a message,
    and keeps its questions and answers. *)
Theorem handleSubmitQuiz_ends app s reply now1 now2 :
  activeSession app = Some (Full s) →
  isQuizAnswered app = Some true →
  ∃ s',
    activeSession (handleSubmitQuiz reply now1 now2 app) = Some (Full s') ∧
    questions s' = questions s ∧ userAnswers s' = userAnswers s ∧
    lastAccessed s' = now2 ∧
    match reply with
    | Some result =>
        state s' = REVIEWING_QUIZ ∧ correction s' = Some result ∧
        weakTopics s' = Some (correction_weakTopics result) ∧ error s' = error_null
    | None =>
        state s' = ERROR ∧ (∃ m, error s' = error_message m ∧ m ≠ "") ∧
        correction s' = correction s
    end.
Proof.
  intros Hactive Hguard.
  pose proof (handleSubmitQuiz_begin_full _ _ now1 Hactive Hguard) as Hbegin.
  pose proof (active_update _ _ Hbegin
                (submit_settled_updates (correctAndReviewQuiz reply)) now2) as Hend.
  assert (activeSessionId (handleSubmitQuiz_begin now1 app) = activeSessionId app)
    as Hid by (unfold handleSubmitQuiz_begin; by rewrite Hguard, Hactive).
  rewrite Hid in Hend.
  eexists. split.
  { unfold handleSubmitQuiz. rewrite Hguard, Hactive. exact Hend. }
  destruct reply as [result|]; destruct s; simpl; repeat split; eauto.
Qed.

Lemma handleSubmitQuiz_ends_witness :
  activeSession sample_answered = Some (Full (session_of sample_answered)) ∧
  isQuizAnswered sample_answered = Some true ∧
  ∃ s',
    activeSession (handleSubmitQuiz (Some sample_correction) 140 150 sample_answered)
    = Some (Full s') ∧
    correction s' = Some sample_correction.
Proof.
  split; [vm_compute; reflexivity|]. split; [vm_compute; reflexivity|].
  destruct (handleSubmitQuiz_ends sample_answered (session_of sample_answered)
              (Some sample_correction) 140 150)
    as (s' & Hs' & _ & _ & _ & _ & Hcorrection & _).
  { vm_compute; reflexivity. }
  { vm_compute; reflexivity. }
  by exists s'.
Defined.

(** ** Every change of the store is saved *)

(** X28.  Once the application has loaded and its effects have run, a change
    of the store re-renders and runs the save effect, which writes the
    whole changed store; when the storage refuses the write the storage
    keeps what it held and the change stays in memory. *)
Theorem change_is_saved b f accepted :
  pendingEffects b = [] →
  cell_isLoaded (current b) = true →
  ∃ b1 b2,
    render (queueSetSessions f b) = Some b1 ∧
    flushEffect accepted b1 = Some b2 ∧
    cell_sessions (current b2) = f (cell_sessions (current b)) ∧
    pendingEffects b2 = [] ∧
    localStorage b2
    = (if accepted then Some (stringify (f (cell_sessions (current b))))
       else localStorage b).
Proof.
  intros Hpending Hloaded. unfold render, queueSetSessions. simpl.
  rewrite Hpending. eexists _, _. split; [reflexivity|].
  unfold flushEffect, saveEffect. simpl. rewrite Hloaded. simpl.
  split; [reflexivity|]. by destruct accepted.
Qed.

Lemma change_is_saved_witness :
  pendingEffects sample_started = [] ∧
  cell_isLoaded (current sample_started) = true ∧
  ∃ b1 b2,
    render (queueSetSessions (λ _, VObject [("session-1", VNull)]) sample_started)
    = Some b1 ∧
    flushEffect true b1 = Some b2 ∧
    localStorage b2 = Some (Document (JObject [("session-1", JNull)])).
Proof.
  split; [reflexivity|]. split; [reflexivity|].
  destruct (change_is_saved sample_started (λ _, VObject [("session-1", VNull)]) true)
    as (b1 & b2 & Hrender & Hflush & _ & _ & Hstorage); [reflexivity..|].
  exists b1, b2. by rewrite Hstorage.
Defined.

(** ** What a click on an option shows *)

(** X29.  A click on an option of the quiz changes what [renderQuiz] shows as
    selected by the text of the option and the identifier of its
    question, not by their positions.  Under a radio question exactly
    the options that carry the clicked text are selected afterwards;
    under a checkbox question the options that carry the clicked text
    flip and the other options stay as they were; and the same holds of
    every question that shares the identifier, while the questions with
    another identifier are not touched.  The one click that does nothing
    of this is the click on a checkbox of a question for which nothing is
    stored and whose identifier names a member that plain objects
    inherit: its handler throws and the session stays as it is. *)
Theorem click_selects s qIndex oIndex now q o :
  state s = TAKING_QUIZ →
  questions s !! qIndex = Some q →
  options q !! oIndex = Some o →
  ((type q = single ∨
    ∀ m, readAnswers (userAnswers s) (question_id q) ≠ answers_inherited m) →
   ∃ s',
     act (ChangeAnswer qIndex oIndex) now s = Some s' ∧
     ∀ q' o',
       isSelected s' q' o'
       = if bool_decide (question_id q' = question_id q) then
           Some match type q with
                | multiple =>
                    let before :=
                      bool_decide (text o' ∈ storedAnswers (userAnswers s) (question_id q)) in
                    if bool_decide (text o' = text o) then negb before else before
                | single => bool_decide (text o' = text o)
                end
         else isSelected s q' o')
  ∧ (type q = multiple →
     (∃ m, readAnswers (userAnswers s) (question_id q) = answers_inherited m) →
     act (ChangeAnswer qIndex oIndex) now s = None).
Proof.
  intros Hstate Hq Ho.
  assert (act (ChangeAnswer qIndex oIndex) now s
          = l ← newAnswers (currentAnswers (userAnswers s) (question_id q)) (text o)
                  (bool_decide (type q = multiple));
            Some (applyUpdates (answer_updates (userAnswers s) (question_id q) l) now s))
    as ->.
  { unfold act, action_updates. rewrite Hstate, Hq. simpl. rewrite Ho. simpl.
    by destruct (newAnswers _ _ _). }
  destruct (newAnswers_cases (userAnswers s) (question_id q) (text o)
              (bool_decide (type q = multiple)))
    as [(l & Hnew & Hl)|(Hnew & Hmultiple & m & Hread)]; rewrite Hnew; simpl; split.
  - intros _. eexists. split; [done|]. intros q' o'.
    unfold isSelected. rewrite userAnswers_answered.
    destruct (decide (question_id q' = question_id q)) as [Hid|Hid].
    + rewrite (bool_decide_eq_true_2 (question_id q' = question_id q)) by done.
      rewrite Hid, readAnswers_insert. f_equal. subst l.
      destruct (type q); simpl.
      * apply bool_decide_ext. by rewrite list_elem_of_singleton.
      * unfold toggle.
        destruct (decide (text o' = text o)) as [Heq|Hne].
        -- rewrite (bool_decide_eq_true_2 (text o' = text o)) by done. rewrite Heq.
           destruct (decide (text o ∈ storedAnswers (userAnswers s) (question_id q)))
             as [Hin|Hin].
           ++ rewrite !(bool_decide_eq_true_2 _ Hin). simpl.
              apply bool_decide_eq_false_2. rewrite list_elem_of_filter. by intros [? _].
           ++ rewrite !(bool_decide_eq_false_2 _ Hin). simpl.
              apply bool_decide_eq_true_2.
              rewrite elem_of_app, list_elem_of_singleton. by right.
        -- rewrite (bool_decide_eq_false_2 (text o' = text o)) by done.
           apply bool_decide_ext.
           destruct (decide (text o ∈ storedAnswers (userAnswers s) (question_id q)))
             as [Hin|Hin].
           ++ rewrite (bool_decide_eq_true_2 _ Hin), list_elem_of_filter.
              split; [by intros [_ ?]|done].
           ++ rewrite (bool_decide_eq_false_2 _ Hin), elem_of_app, list_elem_of_singleton.
              split; [by intros [?|?]|by left].
    + rewrite (bool_decide_eq_false_2 (question_id q' = question_id q)) by done.
      rewrite readAnswers_insert_ne; [done|congruence].
  - intros Htype (m & Hread). exfalso.
    destruct (readAnswers_cases (userAnswers s) (question_id q))
      as [[_ Hown]|(m' & _ & Hcur & _)]; [by destruct (Hown m)|].
    rewrite Hcur in Hnew. unfold newAnswers in Hnew.
    by rewrite bool_decide_eq_true_2 in Hnew by done.
  - intros [Hsingle|Hown]; exfalso.
    + apply bool_decide_eq_true_1 in Hmultiple. congruence.
    + by destruct (Hown m).
  - done.
Qed.

Lemma click_selects_witness :
  state (session_of sample_taking) = TAKING_QUIZ ∧
  questions (session_of sample_taking) !! 0%nat = Some sample_question ∧
  options sample_question !! 0%nat = Some {| text := "2"; isCorrect := true |} ∧
  ∃ s',
    act (ChangeAnswer 0 0) 130 (session_of sample_taking) = Some s' ∧
    isSelected s' sample_question {| text := "2"; isCorrect := true |} = Some true.
Proof.
  split; [vm_compute; reflexivity|]. split; [vm_compute; reflexivity|].
  split; [vm_compute; reflexivity|].
  destruct (proj1 (click_selects (session_of sample_taking) 0 0 130 sample_question
                     {| text := "2"; isCorrect := true |} eq_refl eq_refl eq_refl))
    as (s' & Hact & Hselected).
  { right. intros m. vm_compute. discriminate. }
  exists s'. split; [exact Hact|]. rewrite Hselected. vm_compute; reflexivity.
Defined.

(** ** The submit guard and inherited members *)

(** X30.  What the submit guard tests, whatever the identifiers of the
    quiz: it holds if and only if the active session has at least one
    question and, for every question [q] of it, a non-empty sequence is
    stored under [q.id], or nothing is stored there and [q.id] names a
    function with at least one parameter that plain objects inherit
    ([constructor], [hasOwnProperty], ...; not [toString], which has
    none).  Whenever it holds [handleSubmitQuiz] puts the session in
    [SUBMITTING_QUIZ] with the questions and the answers it has, so a
    question of the second kind is submitted without an answer. *)
Theorem submit_guard_inherits app s now :
  activeSession app = Some (Full s) →
  (isQuizAnswered app = Some true ↔
     questions s ≠ [] ∧
     ∀ q, q ∈ questions s →
       (∃ a, userAnswers s !! question_id q = Some a ∧ a ≠ []) ∨
       (userAnswers s !! question_id q = None ∧
        ∃ n, Object_prototype (question_id q) = Some (inherited_function n) ∧ 0 < n))
  ∧ (isQuizAnswered app = Some true →
     ∃ s',
       activeSession (handleSubmitQuiz_begin now app) = Some (Full s') ∧
       state s' = SUBMITTING_QUIZ ∧ questions s' = questions s ∧
       userAnswers s' = userAnswers s).
Proof.
  intros Hactive. split.
  - rewrite (isQuizAnswered_full _ _ Hactive), <- quizAnswered_spec.
    split; [by intros [= ->]|by intros ->].
  - intros Hguard. eexists. split; [by apply handleSubmitQuiz_begin_full|].
    by destruct s.
Qed.

Lemma submit_guard_inherits_witness :
  activeSession sample_inherited = Some (Full (session_of sample_inherited)) ∧
  userAnswers (session_of sample_inherited) = ∅ ∧
  isQuizAnswered sample_inherited = Some true ∧
  ∃ s',
    activeSession (handleSubmitQuiz_begin 140 sample_inherited) = Some (Full s') ∧
    state s' = SUBMITTING_QUIZ.
Proof.
  split; [vm_compute; reflexivity|]. split; [vm_compute; reflexivity|].
  split; [vm_compute; reflexivity|].
  destruct (proj2 (submit_guard_inherits sample_inherited (session_of sample_inherited)
                     140 eq_refl) eq_refl) as (s' & Hs' & Hstate & _).
  by exists s'.
Defined.
